(** * list_bom.py: scanning a directory tree for files starting with a UTF-8 BOM

    A shallow embedding of [src/list_bom.py] and of the library calls it
    makes ([os.walk], [os.path.join], [os.path.relpath], [open], [read],
    [print]) over an explicit model of the file system and of standard
    output, followed by the properties of the scan.

    The file system is a table of inodes, taken as it stands during one run:
    what fails, fails as the table says (a directory that cannot be listed, a
    file that cannot be opened or read, an entry whose inode is gone).  Paths
    are strings, cut at their separators.  The program runs in a monad of
    state and exceptions; the state is the file system and the trace of the
    calls made, from which the lines of standard output are read off.  The
    walk takes fuel, since a walk that follows links need not end. *)

From Stdlib Require Import String Ascii List Arith Lia Bool.
From Stdlib.Strings Require Import Byte.
From stdpp Require Import base option list gmap strings fin_maps.

Local Open Scope string_scope.
Local Open Scope list_scope.

(** * Python strings and bytes *)

(** [s.endswith(suffix)] for one suffix: the last [len(suffix)] characters
    of [s] are compared with [suffix]. *)
Definition str_endswith (s suffix : string) : bool :=
  let n := String.length s in
  let m := String.length suffix in
  (m <=? n)%nat && String.eqb (substring (n - m) m s) suffix.

(** [s.endswith(tuple)]: some member of the tuple is a suffix of [s]. *)
Definition str_endswith_any (s : string) (suffixes : list string) : bool :=
  existsb (str_endswith s) suffixes.

(** [b.startswith(prefix)] on bytes objects. *)
Fixpoint bytes_startswith (b prefix : list byte) : bool :=
  match prefix, b with
  | [], _ => true
  | p :: prefix', x :: b' => Byte.eqb x p && bytes_startswith b' prefix'
  | _ :: _, [] => false
  end.

(** * Exceptions and results *)

(** The exception classes that the calls below can raise.  The first three
    derive from [Exception]; [KeyboardInterrupt] derives from
    [BaseException] only and stands for what [except Exception] lets
    through. *)
Inductive exn : Type :=
| OSError
| ValueError
| UnicodeEncodeError
| KeyboardInterrupt.

Definition is_Exception (e : exn) : bool :=
  match e with
  | KeyboardInterrupt => false
  | _ => true
  end.

Inductive result (A : Type) : Type :=
| Ok (a : A)
| Raise (e : exn).
Arguments Ok {A} a.
Arguments Raise {A} e.

(** * Paths ([os.path] of the platform of the root constant, ntpath) *)

(** Both separators are accepted in a path; [os.path.join] inserts a
    backslash. *)
Definition is_sep (c : ascii) : bool :=
  Ascii.eqb c "\" || Ascii.eqb c "/".

Definition flush (acc : string) : list string :=
  if String.eqb acc "" then [] else [acc].

(** Cuts a path at its separators; [acc] is the component being read. *)
Fixpoint split_seps (acc s : string) : list string :=
  match s with
  | EmptyString => flush acc
  | String c s' =>
      if is_sep c then flush acc ++ split_seps "" s'
      else split_seps (acc +:+ String c "") s'
  end.

(** [[x for x in p.split(sep) if x]]: the non-empty components of a path,
    the drive first.  Repeated separators yield no component.  The
    components "." and "..", which a directory listing never contains and the
    root constant does not use, are not given their special meaning. *)
Definition components (p : string) : list string := split_seps "" p.

Fixpoint last_char (s : string) : option ascii :=
  match s with
  | EmptyString => None
  | String c EmptyString => Some c
  | String _ s' => last_char s'
  end.

(** [os.path.join(a, b)] for a [b] that carries neither drive nor root, as
    every name of a directory listing: a separator is added unless [a] is
    empty or already ends with one. *)
Definition os_path_join (a b : string) : string :=
  match last_char a with
  | None => b
  | Some c => if is_sep c then a +:+ b else a +:+ "\" +:+ b
  end.

Definition lower (c : ascii) : ascii :=
  let n := nat_of_ascii c in
  if (65 <=? n)%nat && (n <=? 90)%nat then ascii_of_nat (n + 32) else c.

(** [os.path.normcase]: lower case, forward slashes turned. *)
Fixpoint normcase (s : string) : string :=
  match s with
  | EmptyString => EmptyString
  | String c s' =>
      String (if Ascii.eqb c "/" then "\"%char else lower c) (normcase s')
  end.

(** The loop of [relpath] that counts the leading components shared by
    [start_list] and [path_list], compared through [normcase]. *)
Fixpoint common (start_list path_list : list string) : nat :=
  match start_list, path_list with
  | e1 :: s', e2 :: p' =>
      if String.eqb (normcase e1) (normcase e2) then S (common s' p') else 0
  | _, _ => 0
  end.

(** [os.path.relpath(path, start)] for absolute paths: [ValueError] for an
    empty path or two different drives; otherwise one ".." for every
    component of [start] that is not shared, then what is left of [path],
    joined; "." when nothing is left. *)
Definition os_path_relpath (path start : string) : result string :=
  if String.eqb path "" then Raise ValueError
  else
    let s := components start in
    let p := components path in
    if negb (String.eqb (normcase (hd "" s)) (normcase (hd "" p)))
    then Raise ValueError
    else
      let start_list := tl s in
      let path_list := tl p in
      let i := common start_list path_list in
      let rel_list :=
        repeat ".." (length start_list - i) ++ drop i path_list in
      match rel_list with
      | [] => Ok "."
      | a :: l => Ok (fold_left os_path_join l a)
      end.

(** * The file system *)

(** A directory entry: the inode the name resolves to (for a symbolic link,
    the inode of its target, followed to the end) and whether the entry is a
    symbolic link.  An entry whose inode is absent from the table is a
    dangling link or a file that was removed after the listing. *)
Record dirent : Type := { d_ino : nat; d_link : bool }.

(** What happens when a file is opened for reading and read. *)
Inductive fstatus : Type :=
| Readable
| OpenFails
| ReadFails.

Inductive inode : Type :=
| IFile (st : fstatus) (data : list byte)
| IDir (listable : bool) (ents : gmap string dirent).

(** The file system is the table of its inodes; inode 0 is the root of the
    name space, whose entries are the drives. *)
Abbreviation filesystem := (gmap nat inode).

Definition dir_entries (fs : filesystem) (ino : nat)
  : option (gmap string dirent) :=
  match fs !! ino with
  | Some (IDir _ ents) => Some ents
  | _ => None
  end.

(** Name resolution from directory [cur], following links. *)
Fixpoint namei (fs : filesystem) (cur : nat) (comps : list string)
  : option nat :=
  match comps with
  | [] => Some cur
  | n :: rest =>
      match dir_entries fs cur with
      | Some ents =>
          match ents !! n with
          | Some e => namei fs (d_ino e) rest
          | None => None
          end
      | None => None
      end
  end.

(** The entry a path names, its last component not followed ([lstat]). *)
Definition lstat (fs : filesystem) (comps : list string) : option dirent :=
  match last comps with
  | None => None
  | Some n =>
      match namei fs 0 (removelast comps) with
      | Some parent =>
          match dir_entries fs parent with
          | Some ents => ents !! n
          | None => None
          end
      | None => None
      end
  end.

(** The order in which a directory is listed is the platform's: for every
    directory, by its inode, some enumeration of its entries. *)
Record lister : Type := {
  readdir : nat → gmap string dirent → list (string * dirent);
  readdir_perm : ∀ i m, readdir i m ≡ₚ map_to_list m
}.

(** * The world: file system and trace of the calls made *)

Inductive open_mode : Type :=
| ModeRB
| ModeWB.

Inductive event : Type :=
| EvScandir (p : string)
| EvOpen (p : string) (m : open_mode)
| EvRead (p : string) (n : nat)
| EvClose (p : string)
| EvPrint (line : string).

Record world : Type := { w_fs : filesystem; w_trace : list event }.

Definition log (evs : list event) (w : world) : world :=
  {| w_fs := w_fs w; w_trace := w_trace w ++ evs |}.

(** The lines written to standard output, in order. *)
Definition stdout_of (evs : list event) : list string :=
  flat_map (λ ev, match ev with EvPrint line => [line] | _ => [] end) evs.

Definition initial (fs : filesystem) : world :=
  {| w_fs := fs; w_trace := [] |}.

(** * A monad of state, exceptions and fuel

    A computation takes the world and either runs out of fuel ([None]) or
    ends, normally or with an exception, in a new world. *)
Definition M (A : Type) : Type := world → option (result A * world).

Definition ret {A} (a : A) : M A := λ w, Some (Ok a, w).

Definition bind {A B} (m : M A) (k : A → M B) : M B :=
  λ w,
    match m w with
    | Some (Ok a, w') => k a w'
    | Some (Raise e, w') => Some (Raise e, w')
    | None => None
    end.

Notation "x <- m ;; k" := (bind m (λ x, k))
  (at level 100, m at next level, right associativity).
Notation "m ;;; k" := (bind m (λ _, k))
  (at level 100, right associativity).

Definition lift {A} (r : result A) : M A := λ w, Some (r, w).

(** [try: m except <classes>: h], for the classes selected by [catches]. *)
Definition try_catch {A} (catches : exn → bool) (m : M A) (h : exn → M A)
  : M A :=
  λ w,
    match m w with
    | Some (Raise e, w') => if catches e then h e w' else Some (Raise e, w')
    | r => r
    end.

(** [try: m finally: exit]. *)
Definition finally {A} (m : M A) (exit : M unit) : M A :=
  λ w,
    match m w with
    | Some (r, w') => (exit ;;; lift r) w'
    | None => None
    end.

(** [for x in l: body]. *)
Fixpoint for_ {A} (l : list A) (body : A → M unit) : M unit :=
  match l with
  | [] => ret tt
  | x :: l' => body x ;;; for_ l' body
  end.

(** * System and library calls *)

(** An open file object. *)
Record file : Type := { f_ino : nat; f_path : string }.

(** What [os.scandir] yields for an entry: [is_dir] follows links. *)
Record DirEntry : Type :=
  { name : string; is_dir : bool; is_symlink : bool }.

Definition is_OSError (e : exn) : bool :=
  match e with
  | OSError => true
  | _ => false
  end.

Definition target_is_dir (fs : filesystem) (e : dirent) : bool :=
  match fs !! d_ino e with
  | Some (IDir _ _) => true
  | _ => false
  end.

(** The entry [ne] of a directory, as [os.scandir] yields it. *)
Definition to_DirEntry (fs : filesystem) (ne : string * dirent) : DirEntry :=
  {| name := ne.1;
     is_dir := target_is_dir fs ne.2;
     is_symlink := d_link ne.2 |}.

(** Creation of the file that [comps] names, when its directory exists and
    has no such entry. *)
Definition create (fs : filesystem) (comps : list string)
  : option (nat * filesystem) :=
  match last comps, namei fs 0 (removelast comps) with
  | Some n, Some parent =>
      match fs !! parent with
      | Some (IDir l ents) =>
          match ents !! n with
          | None =>
              let i := fresh (dom fs) in
              Some (i, <[i := IFile Readable []]>
                         (<[parent :=
                              IDir l (<[n := {| d_ino := i; d_link := false |}]>
                                        ents)]> fs))
          | Some _ => None
          end
      | _ => None
      end
  | _, _ => None
  end.

(** [open(path, mode)] for the modes ['rb'] and ['wb'].  Opening for reading
    leaves the file system as it is; opening for writing truncates the file
    or creates it.  A path that does not resolve to a file that can be
    opened raises [OSError]. *)
Definition open_ (path : string) (mode : open_mode) : M file :=
  λ w,
    let fs := w_fs w in
    let w1 := log [EvOpen path mode] w in
    let f i := {| f_ino := i; f_path := path |} in
    match namei fs 0 (components path) with
    | Some i =>
        match fs !! i with
        | Some (IFile OpenFails _) => Some (Raise OSError, w1)
        | Some (IFile st data) =>
            match mode with
            | ModeRB => Some (Ok (f i), w1)
            | ModeWB =>
                Some (Ok (f i),
                      {| w_fs := <[i := IFile st []]> fs;
                         w_trace := w_trace w1 |})
            end
        | _ => Some (Raise OSError, w1)
        end
    | None =>
        match mode, create fs (components path) with
        | ModeWB, Some (i, fs') =>
            Some (Ok (f i), {| w_fs := fs'; w_trace := w_trace w1 |})
        | _, _ => Some (Raise OSError, w1)
        end
    end.

(** [f.read(n)]: at most [n] bytes from the start of the file. *)
Definition read (f : file) (n : nat) : M (list byte) :=
  λ w,
    let w1 := log [EvRead (f_path f) n] w in
    match w_fs w !! f_ino f with
    | Some (IFile Readable data) => Some (Ok (take n data), w1)
    | _ => Some (Raise OSError, w1)
    end.

Definition close (f : file) : M unit :=
  λ w, Some (Ok tt, log [EvClose (f_path f)] w).

(** [with open(path, mode) as f: body]: the file is closed however the body
    ends. *)
Definition with_open {A} (path : string) (mode : open_mode)
  (body : file → M A) : M A :=
  f <- open_ path mode ;;
  finally (body f) (close f).

(** [os.path.islink(p)]. *)
Definition os_path_islink (p : string) : M bool :=
  λ w,
    Some (Ok (match lstat (w_fs w) (components p) with
              | Some e => d_link e
              | None => false
              end), w).

Section Program.

(** The platform: the order of directory listings, and the lines that
    standard output accepts ([print] raises on the others, as for a name
    that the encoding of the console cannot represent). *)
Context (ls : lister) (stdout_ok : string → bool).

(** [os.scandir(top)], read to the end: [OSError] unless [top] resolves to a
    directory that can be listed. *)
Definition scandir (top : string) : M (list DirEntry) :=
  λ w,
    let fs := w_fs w in
    let w1 := log [EvScandir top] w in
    match namei fs 0 (components top) with
    | Some i =>
        match fs !! i with
        | Some (IDir true ents) =>
            Some (Ok (map (to_DirEntry fs) (readdir ls i ents)), w1)
        | _ => Some (Raise OSError, w1)
        end
    | None => Some (Raise OSError, w1)
    end.

(** [print(line)]. *)
Definition print (line : string) : M unit :=
  λ w,
    if stdout_ok line then Some (Ok tt, log [EvPrint line] w)
    else Some (Raise UnicodeEncodeError, w).

(** [for dirpath, dirnames, filenames in os.walk(top, followlinks=...): body]
    with [topdown=True] and [onerror=None].  A directory whose listing
    raises [OSError] is skipped without a word; the names whose [is_dir()]
    holds are the [dirnames], the others the [filenames]; after the body,
    the sub-directories are walked in turn, those that are symbolic links
    only under [followlinks]. *)
Fixpoint os_walk (fuel : nat) (followlinks : bool) (top : string)
  (body : string * list string * list string → M unit) : M unit :=
  match fuel with
  | 0 => λ _, None
  | S fuel' =>
      listing <- try_catch is_OSError
                   (entries <- scandir top ;; ret (Some entries))
                   (λ _, ret None) ;;
      match listing with
      | None => ret tt
      | Some entries =>
          let dirs := map name (List.filter is_dir entries) in
          let nondirs :=
            map name (List.filter (λ e, negb (is_dir e)) entries) in
          body (top, dirs, nondirs) ;;;
          for_ dirs (λ dirname,
            let new_path := os_path_join top dirname in
            link <- os_path_islink new_path ;;
            if followlinks || negb link
            then os_walk fuel' followlinks new_path body
            else ret tt)
      end
  end.

(** ** The program *)

Definition root : string :=
  "D:\\Balaji_DS_Portfolio\\CRM_BenchSales_AI_Integration".

Definition extensions : list string :=
  [".json"; ".jsonc"; ".mjs"; ".js"; ".ts"; ".yaml"; ".yml"].

Definition BOM : list byte := [xef; xbb; xbf].

(** The body of the inner loop, for one name of [filenames]. *)
Definition check_file (dirpath name : string) : M unit :=
  if str_endswith_any name extensions then
    let path := os_path_join dirpath name in
    try_catch is_Exception
      (head <- with_open path ModeRB (λ f, read f 3) ;;
       if bytes_startswith head BOM then
         rel <- lift (os_path_relpath path root) ;;
         print rel
       else ret tt)
      (λ _, ret tt)
  else ret tt.

(** The script: [os.walk] is called with its defaults. *)
Definition main (fuel : nat) : M unit :=
  os_walk fuel false root
    (λ '(dirpath, dirnames, filenames),
       for_ filenames (check_file dirpath)).

End Program.

(** * The trace of a run, as a function of the file system

    Nothing the scan calls changes the file system, so the events of a run
    can be computed from the file system it starts in. *)

(** The inode that [open(path, 'rb')] opens, if it does not raise. *)
Definition open_ino (fs : filesystem) (i : nat) : option nat :=
  match fs !! i with
  | Some (IFile OpenFails _) => None
  | Some (IFile _ _) => Some i
  | _ => None
  end.

Definition open_rb (fs : filesystem) (path : string) : option nat :=
  match namei fs 0 (components path) with
  | Some i => open_ino fs i
  | None => None
  end.

(** The bytes that [read(3)] returns from inode [i], if it does not raise. *)
Definition read3 (fs : filesystem) (i : nat) : option (list byte) :=
  match fs !! i with
  | Some (IFile Readable data) => Some (take 3 data)
  | _ => None
  end.

(** The entries that [scandir(top)] yields, if it does not raise. *)
Definition listing (ls : lister) (fs : filesystem) (top : string)
  : option (list DirEntry) :=
  match namei fs 0 (components top) with
  | Some i =>
      match fs !! i with
      | Some (IDir true ents) =>
          Some (map (to_DirEntry fs) (readdir ls i ents))
      | _ => None
      end
  | None => None
  end.

Definition islink (fs : filesystem) (p : string) : bool :=
  match lstat fs (components p) with
  | Some e => d_link e
  | None => false
  end.

(** The events of a sequence of steps, unless one of them runs out of
    fuel. *)
Fixpoint events_seq {A} (f : A → option (list event)) (l : list A)
  : option (list event) :=
  match l with
  | [] => Some []
  | x :: l' =>
      match f x, events_seq f l' with
      | Some evs, Some rest => Some (evs ++ rest)
      | _, _ => None
      end
  end.

Section Trace.

Context (ls : lister) (stdout_ok : string → bool).

(** The events of the check of the file at [path], given the inode that
    opening it yields and the outcome of [relpath] for it. *)
Definition probe_events (fs : filesystem) (path : string)
  (opened : option nat) (rel : result string) : list event :=
  EvOpen path ModeRB ::
  match opened with
  | None => []
  | Some i =>
      EvRead path 3 :: EvClose path ::
      match read3 fs i with
      | Some head =>
          if bytes_startswith head BOM then
            match rel with
            | Ok line => if stdout_ok line then [EvPrint line] else []
            | Raise _ => []
            end
          else []
      | None => []
      end
  end.

(** The events of [check_file dirpath name]. *)
Definition file_events (fs : filesystem) (dirpath name : string)
  : list event :=
  if str_endswith_any name extensions then
    let path := os_path_join dirpath name in
    probe_events fs path (open_rb fs path) (os_path_relpath path root)
  else [].

(** The events of the walk from [top], [None] when the fuel does not
    suffice. *)
Fixpoint walk_events (fuel : nat) (followlinks : bool) (fs : filesystem)
  (top : string) : option (list event) :=
  match fuel with
  | 0 => None
  | S fuel' =>
      match listing ls fs top with
      | None => Some [EvScandir top]
      | Some entries =>
          let dirs := map name (List.filter is_dir entries) in
          let nondirs :=
            map name (List.filter (λ e, negb (is_dir e)) entries) in
          match
            events_seq
              (λ dirname,
                 let new_path := os_path_join top dirname in
                 if followlinks || negb (islink fs new_path)
                 then walk_events fuel' followlinks fs new_path
                 else Some [])
              dirs
          with
          | Some below =>
              Some (EvScandir top ::
                    flat_map (file_events fs top) nondirs ++ below)
          | None => None
          end
      end
  end.

End Trace.

(** * Well-formed file systems *)

Fixpoint sep_free (s : string) : bool :=
  match s with
  | EmptyString => true
  | String c s' => negb (is_sep c) && sep_free s'
  end.

(** A name of a directory entry is not empty and holds no separator. *)
Definition valid_name (n : string) : bool :=
  negb (String.eqb n "") && sep_free n.

(** [P i n e] holds of every entry [n ↦ e] of every directory [i]. *)
Definition dir_forall (P : nat → string → dirent → bool) (fs : filesystem)
  : bool :=
  forallb
    (λ node : nat * inode,
       match node.2 with
       | IDir _ ents =>
           forallb (λ ne : string * dirent, P node.1 ne.1 ne.2)
             (map_to_list ents)
       | IFile _ _ => true
       end)
    (map_to_list fs).

Definition names_valid (fs : filesystem) : bool :=
  dir_forall (λ _ n _, valid_name n) fs.

(** Directories nest without a cycle as long as links are left aside: every
    entry that is not a symbolic link leads to an inode of lower rank.
    Symbolic links may point anywhere, to an ancestor too. *)
Definition ranked (rank : nat → nat) (fs : filesystem) : bool :=
  dir_forall (λ i _ e, d_link e || (rank (d_ino e) <? rank i)%nat) fs.

(** The same two conditions, as properties of the table. *)
Definition NamesValid (fs : filesystem) : Prop :=
  ∀ i l ents n e,
    fs !! i = Some (IDir l ents) → ents !! n = Some e → valid_name n = true.

Definition Ranked (rank : nat → nat) (fs : filesystem) : Prop :=
  ∀ i l ents n e,
    fs !! i = Some (IDir l ents) → ents !! n = Some e →
    d_link e = false → rank (d_ino e) < rank i.

(** * Paths below the root *)

(** The path of the entry reached from [top] by the names [pre]. *)
Definition path_of (top : string) (pre : list string) : string :=
  fold_left os_path_join pre top.

(** The relative path with components [comps], as [relpath] returns it. *)
Definition render (comps : list string) : string :=
  match comps with
  | [] => "."
  | a :: l => fold_left os_path_join l a
  end.

(** The directory reached from [cur] by [pre] through directories that can
    be listed and entries that are not symbolic links. *)
Fixpoint descend (fs : filesystem) (cur : nat) (pre : list string)
  : option nat :=
  match pre with
  | [] => Some cur
  | n :: rest =>
      match fs !! cur with
      | Some (IDir true ents) =>
          match ents !! n with
          | Some e =>
              if target_is_dir fs e && negb (d_link e)
              then descend fs (d_ino e) rest
              else None
          | None => None
          end
      | _ => None
      end
  end.

(** The entry named [n] of the directory [i], when [i] can be listed and the
    entry is not a directory. *)
Definition file_entry (fs : filesystem) (i : nat) (n : string)
  : option dirent :=
  match fs !! i with
  | Some (IDir true ents) =>
      match ents !! n with
      | Some e => if target_is_dir fs e then None else Some e
      | None => None
      end
  | _ => None
  end.

(** The file that [comps] names under the directory [cur]: status and
    content of the inode of the entry reached by [descend]. *)
Definition file_under (fs : filesystem) (cur : nat) (comps : list string)
  : option (fstatus * list byte) :=
  match last comps, descend fs cur (removelast comps) with
  | Some n, Some i =>
      match file_entry fs i n with
      | Some e =>
          match fs !! d_ino e with
          | Some (IFile st data) => Some (st, data)
          | _ => None
          end
      | None => None
      end
  | _, _ => None
  end.

(** Reading the inode succeeds and yields the mark. *)
Definition has_bom (fs : filesystem) (i : nat) : bool :=
  match read3 fs i with
  | Some head => bytes_startswith head BOM
  | None => false
  end.

Section Tree.

Context (ls : lister) (stdout_ok : string → bool).

(** The events for the entry [ne] of the directory below the root at
    [pre]. *)
Definition entry_events (fs : filesystem) (pre : list string)
  (ne : string * dirent) : list event :=
  if str_endswith_any ne.1 extensions then
    probe_events stdout_ok fs (path_of root (pre ++ [ne.1]))
      (open_ino fs (d_ino ne.2)) (Ok (render (pre ++ [ne.1])))
  else [].

(** The events of the walk of directory [ino], found below the root at
    [pre]. *)
Fixpoint tree_events (fuel : nat) (fs : filesystem) (ino : nat)
  (pre : list string) : list event :=
  match fuel with
  | 0 => []
  | S fuel' =>
      EvScandir (path_of root pre) ::
      match fs !! ino with
      | Some (IDir true ents) =>
          let l := readdir ls ino ents in
          flat_map (entry_events fs pre)
            (List.filter (λ ne, negb (target_is_dir fs ne.2)) l)
          ++ flat_map
               (λ ne, if d_link ne.2 then []
                      else tree_events fuel' fs (d_ino ne.2) (pre ++ [ne.1]))
               (List.filter (λ ne, target_is_dir fs ne.2) l)
      | _ => []
      end
  end.

(** The entry is reported. *)
Definition entry_hit (fs : filesystem) (pre : list string)
  (ne : string * dirent) : bool :=
  str_endswith_any ne.1 extensions && has_bom fs (d_ino ne.2)
  && stdout_ok (render (pre ++ [ne.1])).

(** The files reported by the walk of directory [ino], by their components
    below the root, in the order of the walk. *)
Fixpoint tree_hits (fuel : nat) (fs : filesystem) (ino : nat)
  (pre : list string) : list (list string) :=
  match fuel with
  | 0 => []
  | S fuel' =>
      match fs !! ino with
      | Some (IDir true ents) =>
          let l := readdir ls ino ents in
          map (λ ne, pre ++ [ne.1])
            (List.filter
               (λ ne, negb (target_is_dir fs ne.2) && entry_hit fs pre ne) l)
          ++ flat_map
               (λ ne, if d_link ne.2 then []
                      else tree_hits fuel' fs (d_ino ne.2) (pre ++ [ne.1]))
               (List.filter (λ ne, target_is_dir fs ne.2) l)
      | _ => []
      end
  end.

End Tree.

(** The file that [rest] names under the directory [ino], itself below the
    root at [pre], has a recognized extension, can be read, starts with the
    mark, and standard output accepts its relative path. *)
Definition reported_file (stdout_ok : string → bool) (fs : filesystem)
  (ino : nat) (pre rest : list string) : Prop :=
  ∃ n data,
    last rest = Some n
    ∧ file_under fs ino rest = Some (Readable, data)
    ∧ bytes_startswith (take 3 data) BOM = true
    ∧ str_endswith_any n extensions = true
    ∧ stdout_ok (render (pre ++ rest)) = true.

(** Fuel that suffices for the walk from the root. *)
Definition fuel_for (rank : nat → nat) (fs : filesystem) : nat :=
  match namei fs 0 (components root) with
  | Some r => S (rank r)
  | None => 1
  end.

(** The events of the scan of a well-formed file system. *)
Definition scan_events (ls : lister) (stdout_ok : string → bool)
  (rank : nat → nat) (fs : filesystem) : list event :=
  match namei fs 0 (components root) with
  | Some r => tree_events ls stdout_ok (S (rank r)) fs r []
  | None => [EvScandir root]
  end.


(** The event concerns a file whose name ends in a recognized extension, or
    is the listing of a directory. *)
Definition candidate_event (ev : event) : Prop :=
  match ev with
  | EvScandir _ => True
  | EvOpen p _ | EvRead p _ | EvClose p =>
      ∃ d n, p = os_path_join d n ∧ valid_name n = true
             ∧ str_endswith_any n extensions = true
  | EvPrint line =>
      ∃ pre n, line = render (pre ++ [n]) ∧ valid_name n = true
               ∧ str_endswith_any n extensions = true
  end.

(** The paths of the files that were opened, in order. *)
Definition opened_paths (evs : list event) : list string :=
  flat_map (λ ev, match ev with EvOpen p _ => [p] | _ => [] end) evs.





(** * Example file systems *)

Definition ent (i : nat) : dirent := {| d_ino := i; d_link := false |}.
Definition lnk (i : nat) : dirent := {| d_ino := i; d_link := true |}.
Definition dir (l : list (string * dirent)) : inode :=
  IDir true (list_to_map l).

(** Listing in the order of the table, and in the opposite order. *)
Definition ls_table : lister :=
  {| readdir := λ _, map_to_list; readdir_perm := λ _ m, reflexivity _ |}.

Definition ls_reverse : lister :=
  {| readdir := λ _ m, reverse (map_to_list m);
     readdir_perm := λ _ m, reverse_Permutation _ |}.

(** The directories from the drive down to the root of the scan, inode 3,
    whose entries are [entries]. *)
Definition above_root (entries : list (string * dirent))
  : list (nat * inode) :=
  [(0, dir [("D:", ent 1)]);
   (1, dir [("Balaji_DS_Portfolio", ent 2)]);
   (2, dir [("CRM_BenchSales_AI_Integration", ent 3)]);
   (3, dir entries)].

(** [a.json] with the mark, [b.ts] without, [c.txt] with the mark but no
    recognized extension, [sub\d.yaml] with the mark; besides, [e.yml] with
    the mark, which cannot be opened, [f.js] of two bytes, [g.mjs] with the
    mark, and two symbolic links that close cycles: [loop] and [sub\up] lead
    back to the root. *)
Definition scenario_fs : filesystem :=
  list_to_map
    (above_root
       [("a.json", ent 4); ("b.ts", ent 5); ("c.txt", ent 6);
        ("sub", ent 7); ("e.yml", ent 9); ("f.js", ent 10);
        ("g.mjs", ent 11); ("loop", lnk 3)]
     ++ [(4, IFile Readable [xef; xbb; xbf; x7b; x7d]);
         (5, IFile Readable [x65; x78; x70; x6f; x72; x74]);
         (6, IFile Readable [xef; xbb; xbf]);
         (7, dir [("d.yaml", ent 8); ("up", lnk 3)]);
         (8, IFile Readable [xef; xbb; xbf; x61]);
         (9, IFile OpenFails [xef; xbb; xbf; x61]);
         (10, IFile Readable [xef; xbb]);
         (11, IFile Readable [xef; xbb; xbf])]).

Definition scenario_rank (i : nat) : nat := 16 - i.

(** A second drive, with a file that starts with the mark. *)
Definition two_drives_fs : filesystem :=
  list_to_map
    [(0, dir [("D:", ent 1); ("E:", ent 2)]);
     (1, dir []);
     (2, dir [("a.json", ent 3)]);
     (3, IFile Readable [xef; xbb; xbf])].

(** A file system without the root. *)
Definition no_root_fs : filesystem := list_to_map [(0, dir [])].

(** * Further notions for the properties of the scan *)

(** The inode with its file cut to the first three bytes. *)
Definition clip (node : inode) : inode :=
  match node with
  | IFile st data => IFile st (take 3 data)
  | IDir l ents => IDir l ents
  end.

(** What a run leaves for an observer: how it ended and the calls made. *)
Definition outcome (run : option (result unit * world))
  : option (result unit * list event) :=
  match run with
  | Some (r, w) => Some (r, w_trace w)
  | None => None
  end.



(** [a] occurs in [l] before [b] does. *)
Definition before {A} (a b : A) (l : list A) : Prop :=
  ∃ l1 l2 l3, l = l1 ++ a :: l2 ++ b :: l3.

(** [scenario_fs] with other bytes after the third byte of its files. *)
Definition scenario_fs_tails : filesystem :=
  list_to_map
    (above_root
       [("a.json", ent 4); ("b.ts", ent 5); ("c.txt", ent 6);
        ("sub", ent 7); ("e.yml", ent 9); ("f.js", ent 10);
        ("g.mjs", ent 11); ("loop", lnk 3)]
     ++ [(4, IFile Readable [xef; xbb; xbf; x5b; x5d; x0a]);
         (5, IFile Readable [x65; x78; x70]);
         (6, IFile Readable [xef; xbb; xbf; x00]);
         (7, dir [("d.yaml", ent 8); ("up", lnk 3)]);
         (8, IFile Readable [xef; xbb; xbf]);
         (9, IFile OpenFails [xef; xbb; xbf]);
         (10, IFile Readable [xef; xbb]);
         (11, IFile Readable [xef; xbb; xbf; x2f; x2f])]).

(** [scenario_fs] with a directory that cannot be listed, [locked], which
    holds a file with the mark, and a directory [pkg.json]. *)
Definition locked_fs : filesystem :=
  list_to_map
    (above_root
       [("a.json", ent 4); ("locked", ent 5); ("pkg.json", ent 7);
        ("via", lnk 7)]
     ++ [(4, IFile Readable [xef; xbb; xbf]);
         (5, IDir false (list_to_map [("h.ts", ent 6)]));
         (6, IFile Readable [xef; xbb; xbf]);
         (7, dir [("i.yml", ent 8)]);
         (8, IFile Readable [xef; xbb; xbf])]).

(** The entry that [comps] names under the directory [cur], when it is
    reached through directories that can be listed and entries that are not
    symbolic links, and is not a directory itself. *)
Definition entry_under (fs : filesystem) (cur : nat) (comps : list string)
  : option dirent :=
  match last comps, descend fs cur (removelast comps) with
  | Some n, Some i => file_entry fs i n
  | _, _ => None
  end.

(** The candidates met by the walk of directory [ino], by their components
    below the root, in the order of the walk: the entries that are not
    directories and whose name ends in a recognized extension. *)
Fixpoint tree_cands (ls : lister) (fuel : nat) (fs : filesystem) (ino : nat)
  (pre : list string) : list (list string) :=
  match fuel with
  | 0 => []
  | S fuel' =>
      match fs !! ino with
      | Some (IDir true ents) =>
          let l := readdir ls ino ents in
          map (λ ne, pre ++ [ne.1])
            (List.filter
               (λ ne, negb (target_is_dir fs ne.2)
                      && str_endswith_any ne.1 extensions) l)
          ++ flat_map
               (λ ne, if d_link ne.2 then []
                      else tree_cands ls fuel' fs (d_ino ne.2) (pre ++ [ne.1]))
               (List.filter (λ ne, target_is_dir fs ne.2) l)
      | _ => []
      end
  end.

(** * The program runs as the trace functions say *)

Section Run.

Context (ls : lister) (stdout_ok : string → bool).

Lemma log_log evs1 evs2 w : log evs2 (log evs1 w) = log (evs1 ++ evs2) w.
Proof. unfold log; simpl. by rewrite <- app_assoc. Qed.

Lemma log_nil w : log [] w = w.
Proof. destruct w; unfold log; simpl. by rewrite app_nil_r. Qed.

Lemma relpath_raises path start e :
  os_path_relpath path start = Raise e → e = ValueError.
Proof.
  unfold os_path_relpath.
  repeat (case_match; try congruence).
Qed.

Lemma check_file_run dirpath n w :
  check_file stdout_ok dirpath n w
  = Some (Ok tt, log (file_events stdout_ok (w_fs w) dirpath n) w).
Proof.
  unfold check_file, file_events.
  destruct (str_endswith_any n extensions); [|by rewrite log_nil].
  unfold probe_events, try_catch, bind, with_open, bind, open_, open_rb,
    open_ino.
  destruct (namei (w_fs w) 0 (components (os_path_join dirpath n)))
    as [i|]; simpl; [|done].
  destruct (w_fs w !! i) as [[st data| l ents]|] eqn:Hi; simpl; [|done..].
  unfold read3.
  destruct st; simpl; try done; unfold finally, read, bind, close, lift;
    simpl; rewrite Hi; simpl; rewrite ?log_log; simpl; [|done].
  destruct (bytes_startswith (take 3 data) BOM); simpl; [|done].
  destruct (os_path_relpath _ root) as [rel|e] eqn:Hrel; simpl.
  - unfold print. destruct (stdout_ok rel); simpl.
    + by rewrite log_log.
    + done.
  - by rewrite (relpath_raises _ _ _ Hrel).
Qed.

Lemma for_check_file_run dirpath names w :
  for_ names (check_file stdout_ok dirpath) w
  = Some (Ok tt,
          log (flat_map (file_events stdout_ok (w_fs w) dirpath) names) w).
Proof.
  revert w. induction names as [|n names IH]; intros w; simpl.
  - by rewrite log_nil.
  - unfold bind. rewrite check_file_run, IH. simpl. by rewrite log_log.
Qed.

Lemma os_walk_run fuel followlinks top w :
  os_walk ls fuel followlinks top
    (λ '(dirpath, dirnames, filenames),
       for_ filenames (check_file stdout_ok dirpath)) w
  = match walk_events ls stdout_ok fuel followlinks (w_fs w) top with
    | Some evs => Some (Ok tt, log evs w)
    | None => None
    end.
Proof.
  revert top w. induction fuel as [|fuel IH]; intros top w; [done|].
  cbn [os_walk walk_events].
  unfold bind at 1, try_catch, bind at 1, scandir, listing.
  destruct (namei (w_fs w) 0 (components top)) as [i|]; simpl; [|done].
  destruct (w_fs w !! i) as [[st data|[|] ents]|]; simpl; try done.
  set (entries := map _ (readdir ls i ents)).
  unfold bind at 1. rewrite for_check_file_run. simpl.
  set (evs0 := EvScandir top :: _).
  assert (Hgen : ∀ dirs w0, w_fs w0 = w_fs w →
    for_ dirs (λ dirname,
      link <- os_path_islink (os_path_join top dirname) ;;
      if followlinks || negb link
      then os_walk ls fuel followlinks (os_path_join top dirname)
             (λ '(dirpath, _, filenames),
                for_ filenames (check_file stdout_ok dirpath))
      else ret tt) w0
    = match events_seq (λ dirname,
              if followlinks || negb (islink (w_fs w) (os_path_join top dirname))
              then walk_events ls stdout_ok fuel followlinks (w_fs w)
                     (os_path_join top dirname)
              else Some []) dirs with
      | Some below => Some (Ok tt, log below w0)
      | None => None
      end).
  { induction dirs as [|d dirs IHd]; intros w0 Hw0; simpl.
    - by rewrite log_nil.
    - unfold bind at 1, bind at 1, os_path_islink. simpl.
      unfold islink. rewrite Hw0.
      destruct (followlinks || negb _).
      + rewrite IH, Hw0.
        destruct (walk_events ls stdout_ok fuel followlinks (w_fs w) _) as [evs|];
          [|done].
        rewrite IHd by done.
        destruct (events_seq _ dirs); [|done]. by rewrite log_log.
      + simpl. rewrite IHd by done.
        by destruct (events_seq _ dirs). }
  rewrite Hgen by done.
  destruct (events_seq _ _) as [below|]; [|done].
  rewrite !log_log. by subst evs0.
Qed.

(** The run of the script. *)
Lemma main_run fuel w :
  main ls stdout_ok fuel w
  = match walk_events ls stdout_ok fuel false (w_fs w) root with
    | Some evs => Some (Ok tt, log evs w)
    | None => None
    end.
Proof. apply os_walk_run. Qed.

(** No exception leaves the script. *)
Lemma main_ends_normally fuel w r w' :
  main ls stdout_ok fuel w = Some (r, w') → r = Ok tt.
Proof.
  rewrite main_run.
  destruct (walk_events ls stdout_ok fuel false (w_fs w) root); [|done].
  by intros [= <- _].
Qed.

End Run.

(** * Paths: components of joined paths *)

Lemma string_app_cons x (a b : string) :
  String x a +:+ b = String x (a +:+ b).
Proof. reflexivity. Qed.

Lemma string_app_nil_l (a : string) : "" +:+ a = a.
Proof. reflexivity. Qed.

Lemma string_app_assoc (a b c : string) : (a +:+ b) +:+ c = a +:+ (b +:+ c).
Proof.
  induction a as [|x a IH]; [done|]. by rewrite !string_app_cons, IH.
Qed.

Lemma string_app_nil_r (a : string) : a +:+ "" = a.
Proof. induction a as [|x a IH]; [done|]. by rewrite string_app_cons, IH. Qed.

Lemma valid_name_spec n :
  valid_name n = true ↔ n ≠ "" ∧ sep_free n = true.
Proof.
  unfold valid_name. rewrite andb_true_iff, negb_true_iff.
  split; intros [H1 H2]; split; try done.
  - intros ->. by rewrite String.eqb_refl in H1.
  - by apply String.eqb_neq.
Qed.

Lemma split_seps_sep acc a c b :
  is_sep c = true →
  split_seps acc (a +:+ String c b) = split_seps acc a ++ split_seps "" b.
Proof.
  intros Hc. revert acc.
  induction a as [|x a IH]; intros acc;
    rewrite ?string_app_nil_l, ?string_app_cons; simpl.
  - by rewrite Hc.
  - destruct (is_sep x); [|apply IH]. by rewrite IH, app_assoc.
Qed.

Lemma split_seps_free acc n :
  sep_free n = true → split_seps acc n = flush (acc +:+ n).
Proof.
  revert acc. induction n as [|x n IH]; intros acc Hn; simpl in *.
  - by rewrite string_app_nil_r.
  - apply andb_true_iff in Hn as [Hx Hn]. apply negb_true_iff in Hx.
    rewrite Hx, IH by done.
    by rewrite string_app_assoc, string_app_cons, string_app_nil_l.
Qed.

Lemma components_name n : valid_name n = true → components n = [n].
Proof.
  intros [Hne Hfree]%valid_name_spec. unfold components.
  rewrite split_seps_free, string_app_nil_l by done. unfold flush.
  by apply String.eqb_neq in Hne as ->.
Qed.

Lemma last_char_snoc a c :
  last_char a = Some c → ∃ a', a = a' +:+ String c "".
Proof.
  induction a as [|x a IH]; simpl; [done|].
  destruct a as [|y a].
  - intros [= ->]. by exists "".
  - intros [a' Ha']%IH. exists (String x a').
    by rewrite string_app_cons, Ha'.
Qed.

Lemma last_char_None a : last_char a = None → a = "".
Proof.
  induction a as [|x a IH]; [done|]. simpl.
  destruct a; [done|]. intros H. by apply IH in H.
Qed.

Lemma components_join a n :
  valid_name n = true →
  components (os_path_join a n) = components a ++ [n].
Proof.
  intros Hn. pose proof (components_name n Hn) as Hcn.
  unfold os_path_join. destruct (last_char a) as [c|] eqn:Hlast.
  - destruct (is_sep c) eqn:Hc.
    + apply last_char_snoc in Hlast as [a' ->].
      rewrite string_app_assoc, string_app_cons, string_app_nil_l.
      unfold components in *.
      rewrite !split_seps_sep by done. rewrite Hcn. simpl.
      by rewrite app_nil_r.
    + unfold components in *.
      change ("\" +:+ n) with (String "\"%char n).
      rewrite split_seps_sep by done. by rewrite Hcn.
  - apply last_char_None in Hlast as ->. by rewrite Hcn.
Qed.

Lemma path_of_snoc top pre n :
  path_of top (pre ++ [n]) = os_path_join (path_of top pre) n.
Proof. unfold path_of. by rewrite fold_left_app. Qed.

Lemma components_path_of top pre :
  Forall (λ n, valid_name n = true) pre →
  components (path_of top pre) = components top ++ pre.
Proof.
  induction pre as [|n pre IH] using rev_ind; intros Hpre.
  - by rewrite app_nil_r.
  - apply Forall_app in Hpre as [Hpre Hn]. apply Forall_inv in Hn.
    rewrite path_of_snoc, components_join, IH by done.
    by rewrite app_assoc.
Qed.

Lemma components_render comps :
  comps ≠ [] → Forall (λ n, valid_name n = true) comps →
  components (render comps) = comps.
Proof.
  destruct comps as [|a l]; [done|]. intros _ Hall.
  apply Forall_cons in Hall as [Ha Hl]. simpl.
  change (fold_left os_path_join l a) with (path_of a l).
  by rewrite components_path_of, components_name.
Qed.

(** Distinct lists of names have distinct relative paths. *)
Lemma render_inj comps1 comps2 :
  comps1 ≠ [] → comps2 ≠ [] →
  Forall (λ n, valid_name n = true) comps1 →
  Forall (λ n, valid_name n = true) comps2 →
  render comps1 = render comps2 → comps1 = comps2.
Proof.
  intros H1 H2 Hv1 Hv2 Heq.
  rewrite <- (components_render comps1), <- (components_render comps2)
    by done.
  by rewrite Heq.
Qed.

Lemma render_snoc pre n :
  pre ≠ [] → render (pre ++ [n]) = os_path_join (render pre) n.
Proof.
  destruct pre as [|a l]; [done|]. intros _. simpl.
  by rewrite fold_left_app.
Qed.

(** The last component of a relative path is the name of the file. *)
Lemma components_render_snoc pre n :
  valid_name n = true →
  ∃ l, components (render (pre ++ [n])) = l ++ [n].
Proof.
  intros Hn. destruct pre as [|a l].
  - exists []. simpl. by apply components_name.
  - rewrite render_snoc by done. rewrite components_join by done. eauto.
Qed.

Lemma common_app l r : common l (l ++ r) = length l.
Proof.
  induction l as [|x l IH]; simpl; [by destruct r|].
  by rewrite String.eqb_refl, IH.
Qed.

Lemma components_root :
  components root
  = ["D:"; "Balaji_DS_Portfolio"; "CRM_BenchSales_AI_Integration"].
Proof. reflexivity. Qed.

(** [relpath] gives back the names that were joined to the root. *)
Lemma relpath_path_of pre :
  pre ≠ [] → Forall (λ n, valid_name n = true) pre →
  os_path_relpath (path_of root pre) root = Ok (render pre).
Proof.
  intros Hne Hpre. unfold os_path_relpath.
  pose proof (components_path_of root pre Hpre) as Hc.
  destruct (String.eqb_spec (path_of root pre) "") as [Hempty|_].
  { rewrite Hempty, components_root in Hc. done. }
  rewrite Hc, components_root. cbn [hd tl app negb].
  rewrite String.eqb_refl. cbn [negb].
  change ("Balaji_DS_Portfolio" :: "CRM_BenchSales_AI_Integration" :: pre)
    with (["Balaji_DS_Portfolio"; "CRM_BenchSales_AI_Integration"] ++ pre).
  rewrite common_app, Nat.sub_diag, drop_app_length. simpl.
  by destruct pre.
Qed.

(** * The file system: well-formedness, listings, name resolution *)

Lemma dir_forall_spec P fs i l ents n e :
  dir_forall P fs = true →
  fs !! i = Some (IDir l ents) → ents !! n = Some e → P i n e = true.
Proof.
  unfold dir_forall. rewrite forallb_forall. intros Hall Hi Hn.
  specialize (Hall (i, IDir l ents)). simpl in Hall.
  rewrite forallb_forall in Hall.
  apply (Hall ltac:(by apply list_elem_of_In, elem_of_map_to_list) (n, e)).
  by apply list_elem_of_In, elem_of_map_to_list.
Qed.

Lemma names_valid_spec fs : names_valid fs = true → NamesValid fs.
Proof.
  intros H i l ents n e Hi Hn.
  exact (dir_forall_spec _ fs i l ents n e H Hi Hn).
Qed.

Lemma ranked_spec rank fs : ranked rank fs = true → Ranked rank fs.
Proof.
  intros H i l ents n e Hi Hn Hlink.
  pose proof (dir_forall_spec _ fs i l ents n e H Hi Hn) as Hr.
  simpl in Hr. rewrite Hlink in Hr. simpl in Hr.
  by apply Nat.ltb_lt in Hr.
Qed.

Lemma In_readdir (ls : lister) i ents n e :
  In (n, e) (readdir ls i ents) ↔ ents !! n = Some e.
Proof.
  rewrite <- list_elem_of_In, (readdir_perm ls i ents).
  apply elem_of_map_to_list.
Qed.

Lemma NoDup_readdir (ls : lister) i ents :
  NoDup (map fst (readdir ls i ents)).
Proof.
  change (NoDup (fst <$> readdir ls i ents)).
  rewrite (readdir_perm ls i ents). apply NoDup_fst_map_to_list.
Qed.

Lemma namei_app fs cur l1 l2 :
  namei fs cur (l1 ++ l2)
  = match namei fs cur l1 with
    | Some i => namei fs i l2
    | None => None
    end.
Proof.
  revert cur. induction l1 as [|n l1 IH]; intros cur; simpl; [done|].
  destruct (dir_entries fs cur) as [ents|]; [|done].
  destruct (ents !! n) as [e|]; [|done]. apply IH.
Qed.

Lemma dir_entries_Some fs i l ents :
  fs !! i = Some (IDir l ents) → dir_entries fs i = Some ents.
Proof. unfold dir_entries. by intros ->. Qed.

Lemma namei_snoc fs cur pre i l ents n e :
  namei fs cur pre = Some i → fs !! i = Some (IDir l ents) →
  ents !! n = Some e → namei fs cur (pre ++ [n]) = Some (d_ino e).
Proof.
  intros Hpre Hi Hn. rewrite namei_app, Hpre. simpl.
  by rewrite (dir_entries_Some _ _ _ _ Hi), Hn.
Qed.

Lemma lstat_snoc fs pre i l ents n :
  namei fs 0 pre = Some i → fs !! i = Some (IDir l ents) →
  lstat fs (pre ++ [n]) = ents !! n.
Proof.
  intros Hpre Hi. unfold lstat.
  by rewrite last_snoc, removelast_last, Hpre,
    (dir_entries_Some _ _ _ _ Hi).
Qed.

(** Every name along a path that resolves is the name of an entry. *)
Lemma namei_valid fs cur comps i :
  NamesValid fs → namei fs cur comps = Some i →
  Forall (λ n, valid_name n = true) comps.
Proof.
  intros Hv. revert cur. induction comps as [|n rest IH]; intros cur; [done|].
  simpl. unfold dir_entries.
  destruct (fs !! cur) as [[|l ents]|] eqn:Hcur; try done.
  destruct (ents !! n) as [e|] eqn:Hn; [|done].
  intros Hrest. constructor; [by eapply Hv|by eapply IH].
Qed.

(** ** Lists *)

Lemma flat_map_ext_In {A B} (f g : A → list B) l :
  (∀ x, In x l → f x = g x) → flat_map f l = flat_map g l.
Proof.
  induction l as [|x l IH]; intros H; simpl; [done|].
  rewrite H by (by left). rewrite IH; [done|].
  intros y Hy. apply H. by right.
Qed.

Lemma flat_map_map {A B C} (f : B → list C) (g : A → B) l :
  flat_map f (map g l) = flat_map (λ x, f (g x)) l.
Proof. induction l as [|x l IH]; simpl; [done|]. by rewrite IH. Qed.

Lemma events_seq_flat_map {A B} (f : B → option (list event)) (g : A → B)
  (h : A → list event) l :
  (∀ x, In x l → f (g x) = Some (h x)) →
  events_seq f (map g l) = Some (flat_map h l).
Proof.
  induction l as [|x l IH]; intros H; simpl; [done|].
  rewrite H by (by left). rewrite IH; [done|].
  intros y Hy. apply H. by right.
Qed.

Lemma stdout_of_app evs1 evs2 :
  stdout_of (evs1 ++ evs2) = stdout_of evs1 ++ stdout_of evs2.
Proof. unfold stdout_of. apply flat_map_app. Qed.

Lemma stdout_of_flat_map {A} (f : A → list event) l :
  stdout_of (flat_map f l) = flat_map (λ x, stdout_of (f x)) l.
Proof.
  induction l as [|x l IH]; simpl; [done|].
  by rewrite stdout_of_app, IH.
Qed.

Lemma dirs_of_entries fs (l : list (string * dirent)) :
  map name (List.filter is_dir (map (to_DirEntry fs) l))
  = map fst (List.filter (λ ne, target_is_dir fs ne.2) l).
Proof.
  induction l as [|ne l IH]; simpl; [done|].
  destruct (target_is_dir fs ne.2); simpl; by rewrite IH.
Qed.

Lemma nondirs_of_entries fs (l : list (string * dirent)) :
  map name (List.filter (λ e, negb (is_dir e)) (map (to_DirEntry fs) l))
  = map fst (List.filter (λ ne, negb (target_is_dir fs ne.2)) l).
Proof.
  induction l as [|ne l IH]; simpl; [done|].
  destruct (target_is_dir fs ne.2); simpl; by rewrite IH.
Qed.

(** * The walk of a well-formed file system *)

Section Walk.

Context (ls : lister) (stdout_ok : string → bool).
Context (fs : filesystem) (rank : nat → nat).
Hypothesis (Hvalid : NamesValid fs) (Hrank : Ranked rank fs).

Lemma file_entry_events pre ino l ents n e :
  namei fs 0 (components root ++ pre) = Some ino →
  Forall (λ n, valid_name n = true) pre →
  fs !! ino = Some (IDir l ents) → ents !! n = Some e →
  file_events stdout_ok fs (path_of root pre) n
  = entry_events stdout_ok fs pre (n, e).
Proof.
  intros Hino Hpre Hdir Hn. unfold file_events, entry_events.
  cbn [fst snd].
  destruct (str_endswith_any n extensions); [|done].
  assert (Hall : Forall (λ n, valid_name n = true) (pre ++ [n])).
  { apply Forall_app. split; [done|]. constructor; [|done]. by eapply Hvalid. }
  rewrite <- path_of_snoc. unfold open_rb.
  rewrite components_path_of by done.
  rewrite app_assoc, (namei_snoc _ _ _ _ _ _ _ _ Hino Hdir Hn).
  rewrite relpath_path_of; [done| |done]. by destruct pre.
Qed.

(** With fuel above the rank of the directory, the walk ends, and its events
    are those of the tree. *)
Lemma walk_tree_events fuel ino pre :
  namei fs 0 (components root ++ pre) = Some ino →
  Forall (λ n, valid_name n = true) pre →
  rank ino < fuel →
  walk_events ls stdout_ok fuel false fs (path_of root pre)
  = Some (tree_events ls stdout_ok fuel fs ino pre).
Proof.
  revert ino pre. induction fuel as [|fuel IH]; intros ino pre Hino Hpre Hlt;
    [lia|].
  cbn [walk_events tree_events]. unfold listing.
  rewrite components_path_of, Hino by done.
  destruct (fs !! ino) as [[st data|[|] ents]|] eqn:Hdir; try done.
  rewrite dirs_of_entries, nondirs_of_entries.
  rewrite (events_seq_flat_map _ _
    (λ ne, if d_link ne.2 then []
           else tree_events ls stdout_ok fuel fs (d_ino ne.2) (pre ++ [ne.1]))).
  - do 3 f_equal. rewrite flat_map_map. apply flat_map_ext_In.
    intros [n e] [Hin _]%filter_In. apply In_readdir in Hin.
    by eapply file_entry_events.
  - intros [n e] [Hin Hd]%filter_In. apply In_readdir in Hin.
    cbn [fst snd] in *.
    assert (Hn : valid_name n = true) by (by eapply Hvalid).
    unfold islink.
    rewrite components_join, components_path_of by done.
    rewrite (lstat_snoc _ _ _ _ _ _ Hino Hdir), Hin.
    destruct (d_link e) eqn:Hlink; simpl; [done|].
    rewrite <- path_of_snoc. apply IH.
    + rewrite app_assoc. by eapply namei_snoc.
    + apply Forall_app. split; [done|]. by constructor.
    + pose proof (Hrank _ _ _ _ _ Hdir Hin Hlink). lia.
Qed.

(** The run of the script when the root resolves to [r]. *)
Lemma main_tree r fuel w :
  w_fs w = fs →
  namei fs 0 (components root) = Some r →
  rank r < fuel →
  main ls stdout_ok fuel w
  = Some (Ok tt, log (tree_events ls stdout_ok fuel fs r []) w).
Proof.
  intros Hw Hr Hlt. rewrite main_run, Hw.
  change root with (path_of root []) at 1.
  rewrite (walk_tree_events fuel r []); [done| |done|done].
  by rewrite app_nil_r.
Qed.

End Walk.

(** The run of the script when the root does not resolve, or not to a
    directory that can be listed: [os.walk] yields nothing. *)
Lemma main_no_listing ls stdout_ok fuel w :
  listing ls (w_fs w) root = None →
  main ls stdout_ok (S fuel) w = Some (Ok tt, log [EvScandir root] w).
Proof. intros H. rewrite main_run. cbn [walk_events]. by rewrite H. Qed.

(** * What the walk prints *)

Lemma flat_map_if_filter {A B} (p q : A → bool) (f : A → B) l :
  flat_map (λ x, if p x then [f x] else []) (List.filter q l)
  = map f (List.filter (λ x, q x && p x) l).
Proof.
  induction l as [|x l IH]; simpl; [done|].
  destruct (q x); simpl; [|done].
  destruct (p x); simpl; by rewrite IH.
Qed.

Lemma map_flat_map {A B C} (f : B → C) (g : A → list B) l :
  map f (flat_map g l) = flat_map (λ x, map f (g x)) l.
Proof.
  induction l as [|x l IH]; simpl; [done|]. by rewrite map_app, IH.
Qed.

Lemma open_ino_read3 fs i head : read3 fs i = Some head → open_ino fs i = Some i.
Proof.
  unfold read3, open_ino. destruct (fs !! i) as [[[] data|]|]; by try done.
Qed.

Lemma open_ino_Some fs i j : open_ino fs i = Some j → j = i.
Proof.
  unfold open_ino. destruct (fs !! i) as [[[] data|]|]; by intros [= ->].
Qed.

Section Hits.

Context (ls : lister) (stdout_ok : string → bool) (fs : filesystem).

Lemma stdout_of_probe path i line :
  stdout_of (probe_events stdout_ok fs path (open_ino fs i) (Ok line))
  = if has_bom fs i && stdout_ok line then [line] else [].
Proof.
  unfold probe_events, has_bom, stdout_of.
  destruct (read3 fs i) as [head|] eqn:Hread.
  - rewrite (open_ino_read3 _ _ _ Hread). simpl. rewrite Hread.
    destruct (bytes_startswith head BOM); simpl; [|done].
    by destruct (stdout_ok line).
  - simpl. destruct (open_ino fs i) as [j|] eqn:Hopen; simpl; [|done].
    apply open_ino_Some in Hopen as ->. by rewrite Hread.
Qed.

Lemma stdout_of_entry pre ne :
  stdout_of (entry_events stdout_ok fs pre ne)
  = if entry_hit stdout_ok fs pre ne then [render (pre ++ [ne.1])] else [].
Proof.
  unfold entry_events, entry_hit.
  destruct (str_endswith_any ne.1 extensions); [|done].
  by rewrite stdout_of_probe.
Qed.

(** The lines printed are the relative paths of the files reported. *)
Lemma stdout_of_tree fuel ino pre :
  stdout_of (tree_events ls stdout_ok fuel fs ino pre)
  = map render (tree_hits ls stdout_ok fuel fs ino pre).
Proof.
  revert ino pre. induction fuel as [|fuel IH]; intros ino pre; [done|].
  cbn [tree_events tree_hits].
  change (stdout_of (?e :: ?l)) with (stdout_of [e] ++ stdout_of l).
  cbn [stdout_of flat_map app].
  destruct (fs !! ino) as [[st data|[|] ents]|]; try done.
  rewrite stdout_of_app, !stdout_of_flat_map, map_app. f_equal.
  - rewrite (flat_map_ext_In _
      (λ ne, if entry_hit stdout_ok fs pre ne
             then [render (pre ++ [ne.1])] else []));
      [|intros; apply stdout_of_entry].
    by rewrite flat_map_if_filter, map_map.
  - rewrite map_flat_map. apply flat_map_ext_In. intros ne _.
    destruct (d_link ne.2); [done|]. apply IH.
Qed.

End Hits.

(** ** The files reported *)

Lemma file_under_single fs cur n :
  file_under fs cur [n]
  = match file_entry fs cur n with
    | Some e =>
        match fs !! d_ino e with
        | Some (IFile st data) => Some (st, data)
        | _ => None
        end
    | None => None
    end.
Proof. reflexivity. Qed.

Lemma file_under_cons fs cur n rest :
  rest ≠ [] →
  file_under fs cur (n :: rest)
  = match fs !! cur with
    | Some (IDir true ents) =>
        match ents !! n with
        | Some e =>
            if target_is_dir fs e && negb (d_link e)
            then file_under fs (d_ino e) rest
            else None
        | None => None
        end
    | _ => None
    end.
Proof.
  destruct rest as [|m rest]; [done|]. intros _. unfold file_under.
  change (last (n :: m :: rest)) with (last (m :: rest)).
  change (removelast (n :: m :: rest)) with (n :: removelast (m :: rest)).
  cbn [descend].
  destruct (last (m :: rest)) as [k|]; [|by repeat case_match].
  destruct (fs !! cur) as [[|[|] ents]|]; try done.
  destruct (ents !! n) as [e|]; [|done].
  by destruct (target_is_dir fs e && negb (d_link e)).
Qed.

Lemma file_under_nil fs cur : file_under fs cur [] = None.
Proof. reflexivity. Qed.

(** A file found by [file_under] is found by name resolution too. *)
Lemma file_under_namei fs cur rest st data :
  file_under fs cur rest = Some (st, data) →
  ∃ i, namei fs cur rest = Some i ∧ fs !! i = Some (IFile st data).
Proof.
  revert cur. induction rest as [|n rest IH]; intros cur; [done|].
  destruct rest as [|m rest].
  - rewrite file_under_single. unfold file_entry. simpl. unfold dir_entries.
    destruct (fs !! cur) as [[|[|] ents]|]; try done.
    destruct (ents !! n) as [e|]; [|done].
    destruct (target_is_dir fs e); [done|].
    destruct (fs !! d_ino e) as [[st' data'|]|] eqn:He; try done.
    intros [= -> ->]. eauto.
  - rewrite file_under_cons by done. cbn [namei]. unfold dir_entries.
    destruct (fs !! cur) as [[|[|] ents]|]; try done.
    destruct (ents !! n) as [e|]; [|done].
    destruct (target_is_dir fs e && negb (d_link e)); [|done].
    apply IH.
Qed.

Lemma NoDup_map_fst_filter {A B} (p : A * B → bool) (l : list (A * B)) :
  NoDup (map fst l) → NoDup (map fst (List.filter p l)).
Proof.
  induction l as [|x l IH]; simpl; [done|].
  rewrite NoDup_cons. intros [Hx Hl].
  destruct (p x); simpl; [|by apply IH].
  apply NoDup_cons. split; [|by apply IH].
  intros Hin. apply Hx. apply list_elem_of_In in Hin.
  apply list_elem_of_In. apply in_map_iff in Hin as (y & Hy & Hin).
  apply filter_In in Hin as [Hin _]. apply in_map_iff. eauto.
Qed.

Section Reported.

Context (ls : lister) (stdout_ok : string → bool) (fs : filesystem).

(** Every file that the walk reports is a [reported_file]. *)
Lemma hits_sound fuel ino pre comps :
  In comps (tree_hits ls stdout_ok fuel fs ino pre) →
  ∃ rest, comps = pre ++ rest ∧ reported_file stdout_ok fs ino pre rest.
Proof.
  revert ino pre. induction fuel as [|fuel IH]; intros ino pre; [done|].
  cbn [tree_hits].
  destruct (fs !! ino) as [[st data|[|] ents]|] eqn:Hdir; try done.
  rewrite in_app_iff, in_map_iff, in_flat_map.
  intros [([n e] & <- & Hin)|([n e] & Hin & Hcomps)];
    apply filter_In in Hin as [Hin Hp]; apply In_readdir in Hin;
    cbn [fst snd] in *.
  - apply andb_true_iff in Hp as [Hnd Hhit]. apply negb_true_iff in Hnd.
    unfold entry_hit in Hhit. cbn [fst snd] in Hhit.
    apply andb_true_iff in Hhit as [[Hext Hbom]%andb_true_iff Hok].
    unfold has_bom, read3 in Hbom.
    destruct (fs !! d_ino e) as [[[] data|]|] eqn:He; try done.
    exists [n]. split; [done|]. exists n, data.
    rewrite file_under_single. unfold file_entry.
    by rewrite Hdir, Hin, Hnd, He.
  - destruct (d_link e) eqn:Hlink; [done|].
    apply IH in Hcomps as (rest & -> & n' & data & Hlast & Hfile & Hrest).
    exists (n :: rest). split; [by rewrite <- app_assoc|].
    assert (rest ≠ []) by (by intros ->).
    exists n', data. rewrite file_under_cons, Hdir, Hin, Hp, Hlink by done.
    rewrite <- app_assoc in Hrest. split; [|done].
    by destruct rest.
Qed.

(** Every [reported_file] is reported, given fuel above the rank of the
    directory. *)
Lemma hits_complete rank rest :
  Ranked rank fs →
  ∀ fuel ino pre,
    reported_file stdout_ok fs ino pre rest → rank ino < fuel →
    In (pre ++ rest) (tree_hits ls stdout_ok fuel fs ino pre).
Proof.
  intros Hrank. induction rest as [|n rest IH];
    intros fuel ino pre (k & data & Hlast & Hfile & Hbom & Hext & Hok) Hlt;
    [done|].
  destruct fuel as [|fuel]; [lia|]. cbn [tree_hits].
  destruct rest as [|m rest].
  - injection Hlast as <-. rewrite file_under_single in Hfile.
    unfold file_entry in Hfile.
    destruct (fs !! ino) as [[|[|] ents]|]; try done.
    destruct (ents !! n) as [e|] eqn:Hn; [|done].
    destruct (target_is_dir fs e) eqn:Hd; [done|].
    destruct (fs !! d_ino e) as [[st' data'|]|] eqn:He; try done.
    injection Hfile as -> ->.
    apply in_app_iff. left. apply in_map_iff. exists (n, e). split; [done|].
    apply filter_In. split; [by apply In_readdir|]. cbn [fst snd].
    rewrite Hd. unfold entry_hit, has_bom, read3. cbn [fst snd].
    by rewrite Hext, He, Hbom, Hok.
  - rewrite file_under_cons in Hfile by done.
    destruct (fs !! ino) as [[|[|] ents]|] eqn:Hdir; try done.
    destruct (ents !! n) as [e|] eqn:Hn; [|done].
    destruct (target_is_dir fs e) eqn:Hd; [|done].
    destruct (d_link e) eqn:Hlink; [done|]. simpl in Hfile.
    apply in_app_iff. right. apply in_flat_map. exists (n, e). split.
    { apply filter_In. split; [by apply In_readdir|done]. }
    cbn [fst snd]. rewrite Hlink.
    replace (pre ++ n :: m :: rest) with ((pre ++ [n]) ++ m :: rest)
      by (by rewrite <- app_assoc).
    apply IH.
    + exists k, data. by rewrite <- app_assoc.
    + pose proof (Hrank _ _ _ _ _ Hdir Hn Hlink). lia.
Qed.

(** No file is reported twice. *)
Lemma hits_NoDup fuel ino pre :
  NoDup (tree_hits ls stdout_ok fuel fs ino pre).
Proof.
  revert ino pre. induction fuel as [|fuel IH]; intros ino pre;
    [apply NoDup_nil_2|].
  cbn [tree_hits].
  destruct (fs !! ino) as [[st data|[|] ents]|] eqn:Hdir;
    try apply NoDup_nil_2.
  pose proof (NoDup_readdir ls ino ents) as Hnd.
  apply NoDup_app. split; [|split].
  - rewrite <- (map_map fst (λ n, pre ++ [n])).
    apply (NoDup_fmap_2 (λ n, pre ++ [n])).
    by apply NoDup_map_fst_filter.
  - intros comps [[n e] [<- _]]%list_elem_of_In%in_map_iff
      [[n' e'] [Hin Hcomps]]%list_elem_of_In%in_flat_map.
    cbn [fst snd] in *. destruct (d_link e'); [done|].
    apply hits_sound in Hcomps as (rest & Heq & k & data & Hlast & _).
    rewrite <- app_assoc in Heq. apply app_inv_head in Heq.
    injection Heq as -> <-. done.
  - apply NoDup_ListNoDup. apply NoDup_ListNoDup in Hnd.
    set (dirs := List.filter _ _).
    assert (Hdirs : ∀ x, In x dirs → ents !! x.1 = Some x.2).
    { intros [n e] [Hin _]%filter_In. by apply In_readdir in Hin. }
    assert (Hdn : List.NoDup (map fst dirs))
      by (by apply NoDup_ListNoDup, NoDup_map_fst_filter, NoDup_ListNoDup).
    clearbody dirs. induction dirs as [|[n e] dirs IHd]; simpl;
      [constructor|].
    apply NoDup_ListNoDup, NoDup_app. split; [|split].
    + destruct (d_link e); [apply NoDup_nil_2|apply IH].
    + intros comps Hc1%list_elem_of_In
        [[n' e'] [Hin' Hc2]]%list_elem_of_In%in_flat_map.
      cbn [fst snd] in *.
      destruct (d_link e); [done|]. destruct (d_link e'); [done|].
      apply hits_sound in Hc1 as (rest1 & -> & _).
      apply hits_sound in Hc2 as (rest2 & Heq & _).
      rewrite <- !app_assoc in Heq. apply app_inv_head in Heq.
      injection Heq as -> _.
      inversion Hdn as [|? ? Hnotin _]; subst. apply Hnotin.
      apply in_map_iff. by exists (n', e').
    + apply NoDup_ListNoDup, IHd.
      * intros x Hx. apply Hdirs. by right.
      * by inversion Hdn.
Qed.

End Reported.

(** * The scan of a well-formed file system *)

Lemma startswith_BOM head :
  bytes_startswith head BOM = true ↔ take 3 head = BOM.
Proof.
  unfold BOM. destruct head as [|a [|b [|c rest]]];
    cbn [bytes_startswith take];
    try (rewrite ?andb_false_r; split; [done|intros [=]]).
  rewrite !andb_true_iff. split.
  - intros [Ha [Hb [Hc _]]].
    by rewrite (byte_dec_bl _ _ Ha), (byte_dec_bl _ _ Hb),
      (byte_dec_bl _ _ Hc).
  - intros [= -> -> ->]. repeat split. by destruct rest.
Qed.

Lemma startswith_take3 data :
  bytes_startswith (take 3 data) BOM = bytes_startswith data BOM.
Proof.
  destruct data as [|a [|b [|c rest]]]; simpl; try done. by destruct rest.
Qed.

Lemma file_under_dir fs cur rest st data :
  file_under fs cur rest = Some (st, data) →
  ∃ ents, fs !! cur = Some (IDir true ents).
Proof.
  destruct rest as [|n [|m rest]]; [done| |].
  - rewrite file_under_single. unfold file_entry.
    destruct (fs !! cur) as [[|[|] ents]|]; try done. eauto.
  - rewrite file_under_cons by done.
    destruct (fs !! cur) as [[|[|] ents]|]; try done. eauto.
Qed.

Section Scan.

Context (ls : lister) (stdout_ok : string → bool).
Context (fs : filesystem) (rank : nat → nat).
Hypothesis (Hvalid : NamesValid fs) (Hrank : Ranked rank fs).

(** The script ends normally, with the events of [scan_events]. *)
Lemma main_scan w :
  w_fs w = fs →
  main ls stdout_ok (fuel_for rank fs) w
  = Some (Ok tt, log (scan_events ls stdout_ok rank fs) w).
Proof.
  intros Hw. unfold fuel_for, scan_events.
  destruct (namei fs 0 (components root)) as [r|] eqn:Hr.
  - eapply main_tree; eauto.
  - apply main_no_listing. unfold listing. by rewrite Hw, Hr.
Qed.

Lemma main_scan_initial :
  main ls stdout_ok (fuel_for rank fs) (initial fs)
  = Some (Ok tt,
          {| w_fs := fs; w_trace := scan_events ls stdout_ok rank fs |}).
Proof. by rewrite main_scan. Qed.

(** The lines printed, as relative paths of reported files. *)
Lemma stdout_scan line :
  In line (stdout_of (scan_events ls stdout_ok rank fs)) ↔
  ∃ r rest, namei fs 0 (components root) = Some r
    ∧ line = render rest ∧ reported_file stdout_ok fs r [] rest.
Proof.
  unfold scan_events.
  destruct (namei fs 0 (components root)) as [r|] eqn:Hr.
  - rewrite stdout_of_tree, in_map_iff. split.
    + intros (comps & <- & Hin).
      apply hits_sound in Hin as (rest & -> & Hrep). by exists r, rest.
    + intros (r' & rest & [= <-] & -> & Hrep). exists rest. split; [done|].
      apply (hits_complete ls stdout_ok fs rank rest Hrank _ r [] Hrep).
      lia.
  - split; [done|]. by intros (r & rest & [=] & _).
Qed.

(** The components of a reported file are names of entries. *)
Lemma reported_valid r pre rest :
  reported_file stdout_ok fs r pre rest →
  rest ≠ [] ∧ Forall (λ n, valid_name n = true) rest.
Proof.
  intros (n & data & Hlast & Hfile & _). split; [by intros ->|].
  apply file_under_namei in Hfile as (i & Hi & _).
  by eapply namei_valid.
Qed.

(** No line is printed twice. *)
Lemma stdout_scan_NoDup :
  NoDup (stdout_of (scan_events ls stdout_ok rank fs)).
Proof.
  unfold scan_events.
  destruct (namei fs 0 (components root)) as [r|] eqn:Hr;
    [|apply NoDup_nil_2].
  rewrite stdout_of_tree. apply NoDup_fmap_2_strong; [|apply hits_NoDup].
  intros c1 c2 H1%list_elem_of_In H2%list_elem_of_In Heq.
  apply hits_sound in H1 as (rest1 & -> & [Hne1 Hv1]%reported_valid).
  apply hits_sound in H2 as (rest2 & -> & [Hne2 Hv2]%reported_valid).
  simpl in *. by apply render_inj.
Qed.

(** A path that resolves to a file is printed only if the file can be read
    and starts with the mark. *)
Lemma stdout_scan_resolves comps i st data :
  namei fs 0 (components root ++ comps) = Some i →
  fs !! i = Some (IFile st data) →
  In (render comps) (stdout_of (scan_events ls stdout_ok rank fs)) →
  st = Readable ∧ bytes_startswith data BOM = true.
Proof.
  intros Hi Hfile (r & rest & Hr & Heq & Hrep)%stdout_scan.
  pose proof (reported_valid _ _ _ Hrep) as [Hne Hv].
  destruct Hrep as (n & data' & Hlast & Hunder & Hbom & _).
  rewrite namei_app, Hr in Hi.
  assert (comps = rest) as ->.
  { destruct comps as [|c comps].
    - simpl in Hi. injection Hi as ->.
      apply file_under_dir in Hunder as [ents Hd]. congruence.
    - apply render_inj; try done. by eapply namei_valid. }
  apply file_under_namei in Hunder as (j & Hj & Hjfile).
  rewrite Hi in Hj. injection Hj as <-.
  rewrite Hfile in Hjfile. injection Hjfile as -> ->.
  by rewrite startswith_take3 in Hbom.
Qed.

End Scan.

(** * The events of the scan *)

Lemma In_stdout_of line evs : In line (stdout_of evs) ↔ In (EvPrint line) evs.
Proof.
  unfold stdout_of. rewrite in_flat_map. split.
  - intros (ev & Hin & Hline). destruct ev; simpl in Hline; try done.
    by destruct Hline as [->|[]].
  - intros Hin. exists (EvPrint line). split; [done|]. by left.
Qed.

Lemma os_path_join_last d1 n1 d2 n2 :
  valid_name n1 = true → valid_name n2 = true →
  os_path_join d1 n1 = os_path_join d2 n2 → n1 = n2.
Proof.
  intros H1 H2 Heq. apply (f_equal components) in Heq.
  rewrite !components_join in Heq by done.
  by apply app_inj_tail in Heq as [_ ->].
Qed.

Lemma render_last pre1 n1 pre2 n2 :
  valid_name n1 = true → valid_name n2 = true →
  render (pre1 ++ [n1]) = render (pre2 ++ [n2]) → n1 = n2.
Proof.
  intros H1 H2 Heq. apply (f_equal components) in Heq.
  destruct (components_render_snoc pre1 n1 H1) as [l1 Hl1].
  destruct (components_render_snoc pre2 n2 H2) as [l2 Hl2].
  rewrite Hl1, Hl2 in Heq. by apply app_inj_tail in Heq as [_ ->].
Qed.

Section Events.

Context (ls : lister) (stdout_ok : string → bool) (fs : filesystem).
Hypothesis (Hvalid : NamesValid fs).

Lemma entry_events_candidate pre n e ev :
  valid_name n = true →
  In ev (entry_events stdout_ok fs pre (n, e)) → candidate_event ev.
Proof.
  intros Hn. unfold entry_events. cbn [fst snd].
  destruct (str_endswith_any n extensions) eqn:Hext; [|done].
  rewrite path_of_snoc. unfold probe_events.
  assert (Hfile : ∃ d n', os_path_join (path_of root pre) n = os_path_join d n'
                    ∧ valid_name n' = true
                    ∧ str_endswith_any n' extensions = true) by eauto.
  assert (Hline : ∃ pre' n', render (pre ++ [n]) = render (pre' ++ [n'])
                    ∧ valid_name n' = true
                    ∧ str_endswith_any n' extensions = true) by eauto.
  repeat case_match; simpl; intros Hin;
    repeat (destruct Hin as [<-|Hin]; [done|]); done.
Qed.

(** Files are opened and read, and lines printed, for names with a
    recognized extension only. *)
Lemma tree_events_candidate fuel ino pre ev :
  In ev (tree_events ls stdout_ok fuel fs ino pre) → candidate_event ev.
Proof.
  revert ino pre. induction fuel as [|fuel IH]; intros ino pre; [done|].
  cbn [tree_events]. intros [<-|Hin]; [done|].
  destruct (fs !! ino) as [[st data|[|] ents]|] eqn:Hdir; try done.
  apply in_app_iff in Hin as [Hin|Hin];
    apply in_flat_map in Hin as ([n e] & Hne & Hin);
    apply filter_In in Hne as [Hne _]; apply In_readdir in Hne.
  - eapply entry_events_candidate; [|done]. by eapply Hvalid.
  - cbn [fst snd] in Hin. destruct (d_link e); [done|]. by eapply IH.
Qed.

Lemma scan_events_candidate rank ev :
  In ev (scan_events ls stdout_ok rank fs) → candidate_event ev.
Proof.
  unfold scan_events. destruct (namei fs 0 (components root)).
  - apply tree_events_candidate.
  - by intros [<-|[]].
Qed.

(** Only directories reached through entries that are not symbolic links
    are listed. *)
Lemma tree_events_scandir fuel ino pre p :
  In (EvScandir p) (tree_events ls stdout_ok fuel fs ino pre) →
  ∃ post, p = path_of root (pre ++ post) ∧ is_Some (descend fs ino post).
Proof.
  revert ino pre. induction fuel as [|fuel IH]; intros ino pre; [done|].
  cbn [tree_events]. intros [[= <-]|Hin].
  { exists []. by rewrite app_nil_r. }
  destruct (fs !! ino) as [[st data|[|] ents]|] eqn:Hdir; try done.
  apply in_app_iff in Hin as [Hin|Hin];
    apply in_flat_map in Hin as ([n e] & Hne & Hin);
    apply filter_In in Hne as [Hne Hd]; apply In_readdir in Hne;
    cbn [fst snd] in *.
  - exfalso. revert Hin. unfold entry_events, probe_events. cbn [fst snd].
    repeat case_match; simpl; intros Hin;
      repeat (destruct Hin as [[=]|Hin]); done.
  - destruct (d_link e) eqn:Hlink; [done|].
    apply IH in Hin as (post & -> & Hpost).
    exists (n :: post). split; [by rewrite <- app_assoc|].
    cbn [descend]. by rewrite Hdir, Hne, Hd, Hlink.
Qed.

End Events.


(** * Independence of the listing order, and of the lines refused *)

Lemma Permutation_list_filter {A} (p : A → bool) l1 l2 :
  l1 ≡ₚ l2 → List.filter p l1 ≡ₚ List.filter p l2.
Proof.
  induction 1 as [|x l1 l2 _ IH|x y l|l1 l2 l3 _ IH1 _ IH2]; simpl.
  - done.
  - destruct (p x); [by constructor|done].
  - destruct (p x), (p y); try done. apply perm_swap.
  - by etrans.
Qed.

Lemma Permutation_flat_map_ext {A B} (f g : A → list B) l1 l2 :
  l1 ≡ₚ l2 → (∀ x, f x ≡ₚ g x) → flat_map f l1 ≡ₚ flat_map g l2.
Proof.
  intros Hl Hfg. rewrite (Permutation_flat_map f Hl).
  clear Hl. induction l2 as [|x l IH]; simpl; [done|].
  by apply Permutation_app.
Qed.

Lemma list_filter_filter {A} (p q : A → bool) l :
  List.filter p (List.filter q l) = List.filter (λ x, q x && p x) l.
Proof.
  induction l as [|x l IH]; simpl; [done|].
  destruct (q x); simpl; [|done]. destruct (p x); by rewrite IH.
Qed.

Lemma list_filter_flat_map {A B} (p : B → bool) (g : A → list B) l :
  List.filter p (flat_map g l) = flat_map (λ x, List.filter p (g x)) l.
Proof.
  induction l as [|x l IH]; simpl; [done|].
  by rewrite List.filter_app, IH.
Qed.

(** Two listers report the same files, up to their order. *)
Lemma tree_hits_perm ls1 ls2 stdout_ok fs fuel ino pre :
  tree_hits ls1 stdout_ok fuel fs ino pre
  ≡ₚ tree_hits ls2 stdout_ok fuel fs ino pre.
Proof.
  revert ino pre. induction fuel as [|fuel IH]; intros ino pre; [done|].
  cbn [tree_hits].
  destruct (fs !! ino) as [[st data|[|] ents]|]; try done.
  assert (Hl : readdir ls1 ino ents ≡ₚ readdir ls2 ino ents)
    by (by rewrite !readdir_perm).
  apply Permutation_app.
  - by apply Permutation_map, Permutation_list_filter.
  - apply Permutation_flat_map_ext; [by apply Permutation_list_filter|].
    intros ne. by destruct (d_link ne.2).
Qed.

Lemma scan_stdout_perm ls1 ls2 stdout_ok rank fs :
  stdout_of (scan_events ls1 stdout_ok rank fs)
  ≡ₚ stdout_of (scan_events ls2 stdout_ok rank fs).
Proof.
  unfold scan_events. destruct (namei fs 0 (components root)); [|done].
  rewrite !stdout_of_tree. apply Permutation_map, tree_hits_perm.
Qed.

(** The files reported are those that would be reported if standard output
    accepted every line, less those whose line is refused. *)
Lemma tree_hits_accepted ls stdout_ok fs fuel ino pre :
  tree_hits ls stdout_ok fuel fs ino pre
  = List.filter (λ comps, stdout_ok (render comps))
      (tree_hits ls (λ _, true) fuel fs ino pre).
Proof.
  revert ino pre. induction fuel as [|fuel IH]; intros ino pre; [done|].
  cbn [tree_hits].
  destruct (fs !! ino) as [[st data|[|] ents]|]; try done.
  rewrite List.filter_app, filter_map_swap, list_filter_filter,
    list_filter_flat_map.
  f_equal.
  - f_equal. apply filter_ext_in. intros ne _. unfold entry_hit.
    by rewrite andb_true_r, andb_assoc.
  - apply flat_map_ext_In. intros ne _. destruct (d_link ne.2); [done|].
    apply IH.
Qed.

Lemma scan_stdout_accepted ls stdout_ok rank fs :
  stdout_of (scan_events ls stdout_ok rank fs)
  = List.filter stdout_ok (stdout_of (scan_events ls (λ _, true) rank fs)).
Proof.
  unfold scan_events. destruct (namei fs 0 (components root)); [|done].
  by rewrite !stdout_of_tree, filter_map_swap, <- tree_hits_accepted.
Qed.

(** * A file that fails *)

Lemma opened_paths_app evs1 evs2 :
  opened_paths (evs1 ++ evs2) = opened_paths evs1 ++ opened_paths evs2.
Proof. unfold opened_paths. apply flat_map_app. Qed.

Lemma opened_paths_flat_map {A} (f : A → list event) l :
  opened_paths (flat_map f l) = flat_map (λ x, opened_paths (f x)) l.
Proof.
  induction l as [|x l IH]; simpl; [done|].
  by rewrite opened_paths_app, IH.
Qed.

Section Broken.

Context (fs fs' : filesystem) (i : nat).
Hypothesis (Hother : ∀ j, j ≠ i → fs' !! j = fs !! j).
Hypothesis (Hfile : ∃ st data, fs !! i = Some (IFile st data)).
Hypothesis (Hnodir : ∀ l ents, fs' !! i ≠ Some (IDir l ents)).
Hypothesis (Hfails : read3 fs' i = None).









Context (ls : lister) (stdout_ok : string → bool) (r : nat).



End Broken.



(** * Fuel *)

Lemma events_seq_mono {A} (f g : A → option (list event)) l evs :
  (∀ x evs, f x = Some evs → g x = Some evs) →
  events_seq f l = Some evs → events_seq g l = Some evs.
Proof.
  intros Hfg. revert evs. induction l as [|x l IH]; intros evs; simpl;
    [done|].
  destruct (f x) as [evs1|] eqn:Hx; [|done].
  destruct (events_seq f l) as [rest|]; [|done].
  intros [= <-]. by rewrite (Hfg _ _ Hx), (IH rest).
Qed.

(** More fuel does not change the events of a walk that ended. *)
Lemma walk_events_mono ls stdout_ok followlinks fs fuel top evs :
  walk_events ls stdout_ok fuel followlinks fs top = Some evs →
  walk_events ls stdout_ok (S fuel) followlinks fs top = Some evs.
Proof.
  revert top evs. induction fuel as [|fuel IH]; intros top evs; [done|].
  intros H. cbn [walk_events] in *.
  destruct (listing ls fs top) as [entries|]; [|done].
  destruct (events_seq _ _) as [below|] eqn:Hseq in H; [|done].
  erewrite events_seq_mono; [exact H| |exact Hseq].
  intros d evs1. cbn beta. destruct (followlinks || negb _); [|done].
  apply IH.
Qed.

(** A run that ended ends in the same way with any larger fuel. *)
Lemma main_fuel_mono ls stdout_ok fuel fuel' w res :
  (fuel ≤ fuel')%nat →
  main ls stdout_ok fuel w = Some res → main ls stdout_ok fuel' w = Some res.
Proof.
  intros Hle H. induction Hle as [|fuel' _ IH]; [done|].
  rewrite main_run in *.
  destruct (walk_events ls stdout_ok fuel' false (w_fs w) root) eqn:Hw;
    [|done].
  by rewrite (walk_events_mono _ _ _ _ _ _ _ Hw).
Qed.

(** * Symbolic links that close a cycle *)

Lemma events_seq_None {A} (f : A → option (list event)) l x :
  In x l → f x = None → events_seq f l = None.
Proof.
  intros Hin Hx. induction l as [|y l IH]; [done|]. simpl.
  destruct Hin as [->|Hin]; [by rewrite Hx|].
  rewrite IH by done. by destruct (f y).
Qed.

(** Were the links followed, the walk of [scenario_fs] would never end: no
    fuel suffices, since [loop] leads back to the root. *)
Lemma followlinks_cycle_diverges ls stdout_ok fuel top :
  namei scenario_fs 0 (components top) = Some 3 →
  walk_events ls stdout_ok fuel true scenario_fs top = None.
Proof.
  revert top. induction fuel as [|fuel IH]; intros top Htop; [done|].
  cbn [walk_events]. unfold listing. rewrite Htop.
  destruct (scenario_fs !! 3) as [[|[|] ents]|] eqn:Hroot;
    try (vm_compute in Hroot; discriminate).
  assert (Hloop : ents !! "loop" = Some (lnk 3)).
  { vm_compute in Hroot. injection Hroot as <-. reflexivity. }
  rewrite dirs_of_entries.
  rewrite (events_seq_None _ _ "loop"); [done| |].
  - apply in_map_iff. exists ("loop", lnk 3). split; [done|].
    apply filter_In. split; [by apply In_readdir|]. reflexivity.
  - cbn [orb]. apply IH.
    rewrite components_join, namei_app, Htop by done.
    simpl. unfold dir_entries. by rewrite Hroot, Hloop.
Qed.

Example followlinks_never_ends ls stdout_ok fuel :
  os_walk ls fuel true root
    (λ '(dirpath, dirnames, filenames),
       for_ filenames (check_file stdout_ok dirpath))
    (initial scenario_fs) = None.
Proof.
  rewrite os_walk_run. cbn [w_fs initial].
  by rewrite followlinks_cycle_diverges.
Qed.

(** * Examples *)

(** The scenario: [a.json], [g.mjs] and [sub\d.yaml] are printed, in an
    order that depends on the order of listing. *)
Example scenario_output :
  ∃ w,
    main ls_table (λ _, true) (fuel_for scenario_rank scenario_fs)
      (initial scenario_fs) = Some (Ok tt, w)
    ∧ stdout_of (w_trace w) = ["g.mjs"; "a.json"; "sub\d.yaml"].
Proof. eexists. split; vm_compute; reflexivity. Qed.

Example scenario_output_reverse :
  ∃ w,
    main ls_reverse (λ _, true) (fuel_for scenario_rank scenario_fs)
      (initial scenario_fs) = Some (Ok tt, w)
    ∧ stdout_of (w_trace w) = ["a.json"; "g.mjs"; "sub\d.yaml"].
Proof. eexists. split; vm_compute; reflexivity. Qed.

(** Opening for writing changes the file system: the file is truncated. *)
Example open_wb_truncates :
  ∃ f w,
    open_ (os_path_join root "a.json") ModeWB (initial scenario_fs)
    = Some (Ok f, w)
    ∧ scenario_fs !! 4 = Some (IFile Readable [xef; xbb; xbf; x7b; x7d])
    ∧ w_fs w !! 4 = Some (IFile Readable []).
Proof. eexists _, _. repeat split; vm_compute; reflexivity. Qed.

(** A failure of [relpath] is caught as well: for a file on another drive,
    [check_file] reads the mark, prints nothing and ends normally. *)
Example relpath_failure_caught :
  os_path_relpath (os_path_join "E:\" "a.json") root = Raise ValueError
  ∧ ∃ w,
      check_file (λ _, true) "E:\" "a.json" (initial two_drives_fs)
      = Some (Ok tt, w)
      ∧ w_trace w
        = [EvOpen "E:\a.json" ModeRB; EvRead "E:\a.json" 3;
           EvClose "E:\a.json"].
Proof. split; [|eexists; split]; vm_compute; reflexivity. Qed.

(** * Properties of the scan *)

(** C1, as stated, fails: a file under the root whose name ends in a
    recognized extension and whose first three bytes are EF BB BF is not
    reported when it cannot be opened.  In [scenario_fs] the file [e.yml] is
    such a file, and the scan prints its path zero times. *)
Lemma unreadable_bom_file_not_reported :
  namei scenario_fs 0 (components root) = Some 3
  ∧ file_under scenario_fs 3 ["e.yml"]
  = Some (OpenFails, [xef; xbb; xbf; x61])
  ∧ take 3 [xef; xbb; xbf; x61] = BOM
  ∧ str_endswith_any "e.yml" extensions = true
  ∧ ∃ w',
      main ls_table (λ _, true) (fuel_for scenario_rank scenario_fs)
        (initial scenario_fs) = Some (Ok tt, w')
      ∧ count_occ string_dec (stdout_of (w_trace w')) (render ["e.yml"]) = 0.
Proof.
  repeat split; try (vm_compute; reflexivity).
  eexists. split; vm_compute; reflexivity.
Qed.

(** C1 (amended): every file found under the root through directories that
    can be listed and are not symbolic links, whose name ends in one of the
    recognized extensions, that can be opened and read, whose first three
    bytes are EF BB BF, and whose relative path standard output accepts, has
    its root-relative path printed exactly once. *)
Theorem bom_file_reported_once ls stdout_ok fs rank r comps n data :
  names_valid fs = true → ranked rank fs = true →
  namei fs 0 (components root) = Some r →
  last comps = Some n →
  file_under fs r comps = Some (Readable, data) →
  take 3 data = BOM →
  str_endswith_any n extensions = true →
  stdout_ok (render comps) = true →
  ∃ w',
    main ls stdout_ok (fuel_for rank fs) (initial fs) = Some (Ok tt, w')
    ∧ count_occ string_dec (stdout_of (w_trace w')) (render comps) = 1.
Proof.
  intros Hv%names_valid_spec Hr%ranked_spec Hroot Hlast Hfile Hbom Hext Hok.
  eexists. split; [by apply main_scan_initial|]. cbn [w_trace].
  apply NoDup_count_occ'.
  - by apply NoDup_ListNoDup, stdout_scan_NoDup.
  - apply stdout_scan; [done..|]. exists r, comps. repeat split; [done|].
    exists n, data. repeat split; try done.
    rewrite startswith_take3. by apply startswith_BOM.
Qed.

Lemma bom_file_reported_once_witness :
  ∃ w',
    main ls_reverse (λ _, true) (fuel_for scenario_rank scenario_fs)
      (initial scenario_fs) = Some (Ok tt, w')
    ∧ count_occ string_dec (stdout_of (w_trace w'))
        (render ["sub"; "d.yaml"]) = 1.
Proof.
  apply (bom_file_reported_once ls_reverse (λ _, true) scenario_fs
           scenario_rank 3 ["sub"; "d.yaml"] "d.yaml" [xef; xbb; xbf; x61]);
    vm_compute; reflexivity.
Defined.

(** C2: a path under the root that resolves to a file whose content does not
    begin with EF BB BF is never printed, whatever its extension. *)
Theorem no_bom_never_reported ls stdout_ok fs rank comps i st data :
  names_valid fs = true → ranked rank fs = true →
  namei fs 0 (components root ++ comps) = Some i →
  fs !! i = Some (IFile st data) →
  take 3 data ≠ BOM →
  ∃ w',
    main ls stdout_ok (fuel_for rank fs) (initial fs) = Some (Ok tt, w')
    ∧ ¬ In (render comps) (stdout_of (w_trace w')).
Proof.
  intros Hv%names_valid_spec Hr%ranked_spec Hi Hfile Hbom.
  eexists. split; [by apply main_scan_initial|]. cbn [w_trace].
  intros Hin.
  destruct (stdout_scan_resolves ls stdout_ok fs rank Hv Hr _ _ _ _
              Hi Hfile Hin) as [_ Hb].
  by apply startswith_BOM in Hb.
Qed.

Lemma no_bom_never_reported_witness :
  ∃ w',
    main ls_table (λ _, true) (fuel_for scenario_rank scenario_fs)
      (initial scenario_fs) = Some (Ok tt, w')
    ∧ ¬ In (render ["b.ts"]) (stdout_of (w_trace w')).
Proof.
  apply (no_bom_never_reported ls_table (λ _, true) scenario_fs
           scenario_rank ["b.ts"] 5 Readable
           [x65; x78; x70; x6f; x72; x74]);
    try (vm_compute; reflexivity).
  vm_compute. discriminate.
Defined.

(** C3: a file whose name does not end in a recognized extension is never
    opened nor read, under whatever directory it lies, and its relative path
    is never printed, whatever its content. *)
Theorem unrecognized_never_opened ls stdout_ok fs rank dirpath pre n :
  names_valid fs = true → ranked rank fs = true →
  valid_name n = true →
  str_endswith_any n extensions = false →
  ∃ w',
    main ls stdout_ok (fuel_for rank fs) (initial fs) = Some (Ok tt, w')
    ∧ (∀ m, ¬ In (EvOpen (os_path_join dirpath n) m) (w_trace w'))
    ∧ (∀ k, ¬ In (EvRead (os_path_join dirpath n) k) (w_trace w'))
    ∧ ¬ In (render (pre ++ [n])) (stdout_of (w_trace w')).
Proof.
  intros Hv%names_valid_spec Hr%ranked_spec Hn Hext.
  eexists. split; [by apply main_scan_initial|]. cbn [w_trace].
  repeat split.
  - intros m (d & n' & Heq & Hn' & Hext')%scan_events_candidate; [|done].
    apply os_path_join_last in Heq as ->; [congruence|done..].
  - intros k (d & n' & Heq & Hn' & Hext')%scan_events_candidate; [|done].
    apply os_path_join_last in Heq as ->; [congruence|done..].
  - intros (pre' & n' & Heq & Hn' & Hext')%In_stdout_of%scan_events_candidate;
      [|done].
    apply render_last in Heq as ->; [congruence|done..].
Qed.

Lemma unrecognized_never_opened_witness :
  ∃ w',
    main ls_table (λ _, true) (fuel_for scenario_rank scenario_fs)
      (initial scenario_fs) = Some (Ok tt, w')
    ∧ (∀ m, ¬ In (EvOpen (os_path_join root "c.txt") m) (w_trace w'))
    ∧ (∀ k, ¬ In (EvRead (os_path_join root "c.txt") k) (w_trace w'))
    ∧ ¬ In (render ([] ++ ["c.txt"])) (stdout_of (w_trace w')).
Proof.
  apply (unrecognized_never_opened ls_table (λ _, true) scenario_fs
           scenario_rank root [] "c.txt");
    vm_compute; reflexivity.
Defined.



(** C5, as stated, fails: when the root does not exist, the error of the
    listing does not end the program.  In [no_root_fs] the path of the root
    does not resolve, and the script ends normally, having printed
    nothing. *)
Lemma missing_root_ends_normally :
  namei no_root_fs 0 (components root) = None
  ∧ main ls_table (λ _, true) 1 (initial no_root_fs)
    = Some (Ok tt, {| w_fs := no_root_fs; w_trace := [EvScandir root] |}).
Proof. split; vm_compute; reflexivity. Qed.

(** C5 (amended): when the root cannot be listed, because it does not exist
    or is not a directory, [os.walk] ignores the error: the script ends
    normally after the one attempt to list the root and prints nothing. *)
Theorem unlistable_root_ignored ls stdout_ok fuel w :
  listing ls (w_fs w) root = None →
  ∃ w',
    main ls stdout_ok (S fuel) w = Some (Ok tt, w')
    ∧ w_trace w' = w_trace w ++ [EvScandir root]
    ∧ stdout_of (w_trace w') = stdout_of (w_trace w).
Proof.
  intros H. eexists. split; [by apply main_no_listing|]. simpl.
  split; [done|]. rewrite stdout_of_app. simpl. by rewrite app_nil_r.
Qed.

Lemma unlistable_root_ignored_witness :
  ∃ w',
    main ls_table (λ _, true) 1 (initial no_root_fs) = Some (Ok tt, w')
    ∧ w_trace w' = w_trace (initial no_root_fs) ++ [EvScandir root]
    ∧ stdout_of (w_trace w') = stdout_of (w_trace (initial no_root_fs)).
Proof.
  apply (unlistable_root_ignored ls_table (λ _, true) 0 (initial no_root_fs)).
  vm_compute. reflexivity.
Defined.

(** C6: a file of fewer than three bytes is never reported and the scan
    still ends normally; the comparison succeeds only on three bytes or
    more, the first three being exactly EF BB BF. *)
Theorem short_file_never_reported ls stdout_ok fs rank comps i st data :
  names_valid fs = true → ranked rank fs = true →
  namei fs 0 (components root ++ comps) = Some i →
  fs !! i = Some (IFile st data) →
  (length data < 3)%nat →
  (∃ w',
     main ls stdout_ok (fuel_for rank fs) (initial fs) = Some (Ok tt, w')
     ∧ ¬ In (render comps) (stdout_of (w_trace w')))
  ∧ ∀ head, bytes_startswith head BOM = true →
      (3 ≤ length head)%nat ∧ take 3 head = BOM.
Proof.
  intros Hv%names_valid_spec Hr%ranked_spec Hi Hfile Hlen. split.
  - eexists. split; [by apply main_scan_initial|]. cbn [w_trace].
    intros Hin.
    destruct (stdout_scan_resolves ls stdout_ok fs rank Hv Hr _ _ _ _
                Hi Hfile Hin) as [_ Hb].
    apply startswith_BOM in Hb.
    apply (f_equal length) in Hb. rewrite length_take in Hb.
    change (length BOM) with 3 in Hb.
    lia.
  - intros head Hb%startswith_BOM. split; [|done].
    apply (f_equal length) in Hb. rewrite length_take in Hb.
    change (length BOM) with 3 in Hb.
    lia.
Qed.

Lemma short_file_never_reported_witness :
  (∃ w',
     main ls_table (λ _, true) (fuel_for scenario_rank scenario_fs)
       (initial scenario_fs) = Some (Ok tt, w')
     ∧ ¬ In (render ["f.js"]) (stdout_of (w_trace w')))
  ∧ ∀ head, bytes_startswith head BOM = true →
      (3 ≤ length head)%nat ∧ take 3 head = BOM.
Proof.
  apply (short_file_never_reported ls_table (λ _, true) scenario_fs
           scenario_rank ["f.js"] 10 Readable [xef; xbb]);
    try (vm_compute; reflexivity).
Defined.

(** C7: a second run over the file system left by the first, whatever the
    order in which directories are listed in either run, prints the same
    relative paths as the first: the same lines, each as often, possibly in
    another order. *)
Theorem two_runs_same_paths ls1 ls2 stdout_ok fs rank :
  names_valid fs = true → ranked rank fs = true →
  ∃ w1 w2 evs2,
    main ls1 stdout_ok (fuel_for rank fs) (initial fs) = Some (Ok tt, w1)
    ∧ main ls2 stdout_ok (fuel_for rank fs) w1 = Some (Ok tt, w2)
    ∧ w_trace w2 = w_trace w1 ++ evs2
    ∧ stdout_of evs2 ≡ₚ stdout_of (w_trace w1)
    ∧ ∀ line, In line (stdout_of evs2) ↔ In line (stdout_of (w_trace w1)).
Proof.
  intros Hv%names_valid_spec Hr%ranked_spec.
  eexists _, _, (scan_events ls2 stdout_ok rank fs).
  split; [by apply main_scan_initial|].
  split; [by apply main_scan|]. cbn [w_trace log].
  split; [done|].
  pose proof (scan_stdout_perm ls2 ls1 stdout_ok rank fs) as Hperm.
  split; [done|]. intros line. rewrite <- !list_elem_of_In.
  by rewrite Hperm.
Qed.

Lemma two_runs_same_paths_witness :
  ∃ w1 w2 evs2,
    main ls_table (λ _, true) (fuel_for scenario_rank scenario_fs)
      (initial scenario_fs) = Some (Ok tt, w1)
    ∧ main ls_reverse (λ _, true) (fuel_for scenario_rank scenario_fs) w1
      = Some (Ok tt, w2)
    ∧ w_trace w2 = w_trace w1 ++ evs2
    ∧ stdout_of evs2 ≡ₚ stdout_of (w_trace w1)
    ∧ ∀ line, In line (stdout_of evs2) ↔ In line (stdout_of (w_trace w1)).
Proof.
  apply (two_runs_same_paths ls_table ls_reverse (λ _, true) scenario_fs
           scenario_rank);
    vm_compute; reflexivity.
Defined.



(** C9: the handler of [check_file] covers the computation of the relative
    path and the print: [check_file] ends normally whatever fails inside, and
    the lines printed by the scan are those that would be printed if standard
    output accepted every line, in the same order, less the lines it
    refuses. *)
Theorem print_failure_swallowed ls stdout_ok fs rank :
  names_valid fs = true → ranked rank fs = true →
  (∀ dirpath n w,
     ∃ w', check_file stdout_ok dirpath n w = Some (Ok tt, w')
           ∧ w_fs w' = w_fs w)
  ∧ ∃ w w0,
      main ls stdout_ok (fuel_for rank fs) (initial fs) = Some (Ok tt, w)
      ∧ main ls (λ _, true) (fuel_for rank fs) (initial fs)
        = Some (Ok tt, w0)
      ∧ stdout_of (w_trace w)
        = List.filter stdout_ok (stdout_of (w_trace w0)).
Proof.
  intros Hv%names_valid_spec Hr%ranked_spec. split.
  - intros dirpath n w. eexists. by rewrite check_file_run.
  - eexists _, _. split; [by apply main_scan_initial|].
    split; [by apply main_scan_initial|]. cbn [w_trace].
    apply scan_stdout_accepted.
Qed.

Lemma print_failure_swallowed_witness :
  (∀ dirpath n w,
     ∃ w', check_file (λ line, negb (String.eqb line "a.json")) dirpath n w
           = Some (Ok tt, w')
           ∧ w_fs w' = w_fs w)
  ∧ ∃ w w0,
      main ls_table (λ line, negb (String.eqb line "a.json"))
        (fuel_for scenario_rank scenario_fs) (initial scenario_fs)
      = Some (Ok tt, w)
      ∧ main ls_table (λ _, true) (fuel_for scenario_rank scenario_fs)
          (initial scenario_fs) = Some (Ok tt, w0)
      ∧ stdout_of (w_trace w)
        = List.filter (λ line, negb (String.eqb line "a.json"))
            (stdout_of (w_trace w0)).
Proof.
  apply (print_failure_swallowed ls_table
           (λ line, negb (String.eqb line "a.json")) scenario_fs
           scenario_rank);
    vm_compute; reflexivity.
Defined.

(** C10: on every file system whose directories nest without a cycle when
    symbolic links are left aside, the script ends, whatever cycles the
    links close; the directories it lists are reached from the root through
    entries that are not symbolic links. *)
Theorem scan_terminates ls stdout_ok fs rank :
  names_valid fs = true → ranked rank fs = true →
  ∃ w',
    main ls stdout_ok (fuel_for rank fs) (initial fs) = Some (Ok tt, w')
    ∧ ∀ p, In (EvScandir p) (w_trace w') →
        ∃ pre, p = path_of root pre
          ∧ ∀ r, namei fs 0 (components root) = Some r →
              is_Some (descend fs r pre).
Proof.
  intros Hv%names_valid_spec Hr%ranked_spec.
  eexists. split; [by apply main_scan_initial|]. cbn [w_trace].
  intros p. unfold scan_events.
  destruct (namei fs 0 (components root)) as [r|].
  - intros (post & -> & Hpost)%tree_events_scandir.
    exists post. split; [done|]. by intros ? [= <-].
  - intros [[= <-]|[]]. by exists [].
Qed.

Lemma scan_terminates_witness :
  ∃ w',
    main ls_table (λ _, true) (fuel_for scenario_rank scenario_fs)
      (initial scenario_fs) = Some (Ok tt, w')
    ∧ ∀ p, In (EvScandir p) (w_trace w') →
        ∃ pre, p = path_of root pre
          ∧ ∀ r, namei scenario_fs 0 (components root) = Some r →
              is_Some (descend scenario_fs r pre).
Proof.
  apply (scan_terminates ls_table (λ _, true) scenario_fs scenario_rank);
    vm_compute; reflexivity.
Defined.

(** * Further properties of the scan *)

(** ** Which names are candidates *)

Lemma string_length_app (a b : string) :
  String.length (a +:+ b) = String.length a + String.length b.
Proof.
  induction a as [|x a IH]; [done|].
  rewrite string_app_cons. simpl. by rewrite IH.
Qed.

Lemma substring_all (s : string) : substring 0 (String.length s) s = s.
Proof. induction s as [|x s IH]; simpl; [done|]. by rewrite IH. Qed.

Lemma substring_skip (a b : string) m :
  substring (String.length a) m (a +:+ b) = substring 0 m b.
Proof.
  induction a as [|x a IH]; [done|]. rewrite string_app_cons. simpl.
  apply IH.
Qed.

Lemma substring_split (s : string) k :
  (k ≤ String.length s)%nat →
  s = substring 0 k s +:+ substring k (String.length s - k) s.
Proof.
  revert k. induction s as [|x s IH]; intros k Hk; simpl in *.
  - by destruct k.
  - destruct k as [|k]; simpl.
    + by rewrite string_app_nil_l, substring_all.
    + rewrite string_app_cons. f_equal. apply IH. lia.
Qed.

(** [s.endswith(suffix)] holds exactly when [s] is some string followed by
    [suffix]. *)
Lemma str_endswith_spec s suffix :
  str_endswith s suffix = true ↔ ∃ pre, s = pre +:+ suffix.
Proof.
  unfold str_endswith. rewrite andb_true_iff, Nat.leb_le, String.eqb_eq.
  split.
  - intros [Hle Hsub].
    exists (substring 0 (String.length s - String.length suffix) s).
    pose proof (substring_split s (String.length s - String.length suffix)
                  ltac:(lia)) as H.
    replace (String.length s - (String.length s - String.length suffix))
      with (String.length suffix) in H by lia.
    by rewrite Hsub in H.
  - intros [pre ->]. rewrite string_length_app. split; [lia|].
    replace (String.length pre + String.length suffix - String.length suffix)
      with (String.length pre) by lia.
    by rewrite substring_skip, substring_all.
Qed.

(** X1: a name passes the filter of the scan exactly when it is some string,
    possibly empty, followed by one of the seven extensions, letter case
    included. *)
Theorem candidate_iff_suffix n :
  str_endswith_any n extensions = true
  ↔ ∃ pre ext, In ext extensions ∧ n = pre +:+ ext.
Proof.
  unfold str_endswith_any. rewrite existsb_exists. split.
  - intros (ext & Hin & [pre ->]%str_endswith_spec). eauto.
  - intros (pre & ext & Hin & ->). exists ext. split; [done|].
    apply str_endswith_spec. eauto.
Qed.

Lemma str_endswith_any_app a n exts :
  str_endswith_any n exts = true → str_endswith_any (a +:+ n) exts = true.
Proof.
  unfold str_endswith_any. rewrite !existsb_exists.
  intros (ext & Hin & [pre ->]%str_endswith_spec). exists ext.
  split; [done|]. apply str_endswith_spec. exists (a +:+ pre).
  by rewrite string_app_assoc.
Qed.

Lemma os_path_join_suffix a b : ∃ x, os_path_join a b = x +:+ b.
Proof.
  unfold os_path_join. destruct (last_char a) as [c|].
  - destruct (is_sep c); [by exists a|]. exists (a +:+ "\").
    by rewrite string_app_assoc.
  - by exists "".
Qed.

Lemma render_suffix pre n : ∃ x, render (pre ++ [n]) = x +:+ n.
Proof.
  destruct pre as [|a l]; [by exists ""|].
  rewrite render_snoc by done. apply os_path_join_suffix.
Qed.

(** ** What the lines printed say *)

Lemma os_path_join_root line : os_path_join root line = root +:+ "\" +:+ line.
Proof. reflexivity. Qed.

Lemma components_join_root line :
  components (os_path_join root line) = components root ++ components line.
Proof.
  rewrite os_path_join_root. unfold components.
  change ("\" +:+ line) with (String "\"%char line).
  by rewrite split_seps_sep.
Qed.

(** X2: every line printed ends in a recognized extension and, joined to the
    root, is the path of a file that can be read and whose first three bytes
    are EF BB BF; no line is printed twice. *)
Theorem printed_lines_name_bom_files ls stdout_ok fs rank :
  names_valid fs = true → ranked rank fs = true →
  ∃ w',
    main ls stdout_ok (fuel_for rank fs) (initial fs) = Some (Ok tt, w')
    ∧ NoDup (stdout_of (w_trace w'))
    ∧ ∀ line, In line (stdout_of (w_trace w')) →
        str_endswith_any line extensions = true
        ∧ stdout_ok line = true
        ∧ ∃ i data,
            namei fs 0 (components (os_path_join root line)) = Some i
            ∧ fs !! i = Some (IFile Readable data)
            ∧ take 3 data = BOM.
Proof.
  intros Hv%names_valid_spec Hr%ranked_spec.
  eexists. split; [by apply main_scan_initial|]. cbn [w_trace].
  split; [by apply stdout_scan_NoDup|].
  intros line (r & rest & Hroot & -> & Hrep)%stdout_scan; [|done..].
  destruct (reported_valid _ _ Hv _ _ _ Hrep) as [Hne Hvr].
  destruct Hrep as (n & data & Hlast & Hfile & Hbom & Hext & Hok).
  apply file_under_namei in Hfile as (i & Hi & Hifile).
  assert (Hrest : rest = removelast rest ++ [n]).
  { rewrite (app_removelast_last "" Hne) at 1. f_equal. f_equal.
    apply last_Some in Hlast as [l' ->]. by rewrite List.last_last. }
  repeat split.
  - rewrite Hrest. destruct (render_suffix (removelast rest) n) as [x ->].
    by apply str_endswith_any_app.
  - done.
  - exists i, data. rewrite components_join_root, components_render by done.
    rewrite namei_app, Hroot. repeat split; [done..|].
    rewrite startswith_take3 in Hbom. by apply startswith_BOM.
Qed.

Lemma printed_lines_name_bom_files_witness :
  ∃ w',
    main ls_table (λ line, negb (String.eqb line "g.mjs"))
      (fuel_for scenario_rank scenario_fs) (initial scenario_fs)
    = Some (Ok tt, w')
    ∧ NoDup (stdout_of (w_trace w'))
    ∧ ∀ line, In line (stdout_of (w_trace w')) →
        str_endswith_any line extensions = true
        ∧ negb (String.eqb line "g.mjs") = true
        ∧ ∃ i data,
            namei scenario_fs 0 (components (os_path_join root line)) = Some i
            ∧ scenario_fs !! i = Some (IFile Readable data)
            ∧ take 3 data = BOM.
Proof.
  apply (printed_lines_name_bom_files ls_table
           (λ line, negb (String.eqb line "g.mjs")) scenario_fs
           scenario_rank);
    vm_compute; reflexivity.
Defined.



(** X4: no exception leaves the script, whatever the file system, the order
    of listing, the lines that standard output refuses and the fuel: a run
    that ends, ends normally. *)
Theorem script_never_raises ls stdout_ok fuel w r w' :
  main ls stdout_ok fuel w = Some (r, w') → r = Ok tt.
Proof.
  rewrite main_run.
  destruct (walk_events ls stdout_ok fuel false (w_fs w) root) as [evs|];
    [|done].
  by intros [= <- _].
Qed.

Lemma script_never_raises_witness :
  ∃ r w',
    main ls_reverse (λ _, false) 14 (initial locked_fs) = Some (r, w')
    ∧ r = Ok tt.
Proof.
  eexists _, _. split; [vm_compute; reflexivity|].
  eapply (script_never_raises ls_reverse (λ _, false) 14 (initial locked_fs)
            (Ok tt)).
  vm_compute. reflexivity.
Defined.

(** ** What is never reported *)

Lemma descend_app fs cur l1 l2 :
  descend fs cur (l1 ++ l2)
  = match descend fs cur l1 with
    | Some i => descend fs i l2
    | None => None
    end.
Proof.
  revert cur. induction l1 as [|n l1 IH]; intros cur; simpl; [done|].
  destruct (fs !! cur) as [[|[|] ents]|]; try done.
  destruct (ents !! n) as [e|]; [|done].
  destruct (target_is_dir fs e && negb (d_link e)); [apply IH|done].
Qed.

Lemma descend_namei fs cur l i :
  descend fs cur l = Some i → namei fs cur l = Some i.
Proof.
  revert cur. induction l as [|n l IH]; intros cur; simpl; [done|].
  unfold dir_entries.
  destruct (fs !! cur) as [[|[|] ents]|]; try done.
  destruct (ents !! n) as [e|]; [|done].
  destruct (target_is_dir fs e && negb (d_link e)); [apply IH|done].
Qed.

(** The entries along the path of a file that [file_under] finds: the
    directory of each can be listed, and each entry but the last is a
    directory and no symbolic link. *)
Lemma file_under_through fs r pre n post st data :
  file_under fs r (pre ++ n :: post) = Some (st, data) →
  ∃ i ents e,
    namei fs r pre = Some i ∧ fs !! i = Some (IDir true ents)
    ∧ ents !! n = Some e
    ∧ (post = [] → target_is_dir fs e = false)
    ∧ (post ≠ [] → target_is_dir fs e = true ∧ d_link e = false).
Proof.
  unfold file_under. intros H.
  destruct (last (pre ++ n :: post)) as [k|] eqn:Hlast; [|done].
  destruct (descend fs r (removelast (pre ++ n :: post))) as [j|] eqn:Hd;
    [|done].
  rewrite removelast_app, descend_app in Hd by done.
  destruct (descend fs r pre) as [i|] eqn:Hpre; [|done].
  apply descend_namei in Hpre. exists i.
  destruct post as [|m post].
  - simpl in Hd. injection Hd as <-.
    rewrite last_snoc in Hlast. injection Hlast as <-.
    unfold file_entry in H.
    destruct (fs !! i) as [[|[|] ents]|]; try done.
    destruct (ents !! n) as [e|] eqn:He; [|done].
    destruct (target_is_dir fs e) eqn:Ht; [done|].
    exists ents, e. by repeat split.
  - change (removelast (n :: m :: post)) with (n :: removelast (m :: post))
      in Hd.
    cbn [descend] in Hd.
    destruct (fs !! i) as [[|[|] ents]|]; try done.
    destruct (ents !! n) as [e|] eqn:He; [|done].
    destruct (target_is_dir fs e) eqn:Ht; [|done].
    destruct (d_link e) eqn:Hl; [done|].
    exists ents, e. by repeat split.
Qed.

Section NotReported.

Context (ls : lister) (stdout_ok : string → bool).
Context (fs : filesystem) (rank : nat → nat).
Hypothesis (Hvalid : NamesValid fs) (Hrank : Ranked rank fs).

(** A line printed for the names [pre], [n], [post] shows what
    [file_under_through] says of the entry [n]. *)
Lemma printed_through pre i l ents n e post :
  namei fs 0 (components root ++ pre) = Some i →
  fs !! i = Some (IDir l ents) → ents !! n = Some e →
  Forall (λ m, valid_name m = true) post →
  In (render (pre ++ n :: post))
    (stdout_of (scan_events ls stdout_ok rank fs)) →
  l = true
  ∧ (post = [] → target_is_dir fs e = false)
  ∧ (post ≠ [] → target_is_dir fs e = true ∧ d_link e = false).
Proof.
  intros Hi Hdir Hn Hpost (r & rest & Hroot & Heq & Hrep)%stdout_scan;
    [|done..].
  rewrite namei_app, Hroot in Hi.
  destruct (reported_valid _ _ Hvalid _ _ _ Hrep) as [Hne Hvr].
  apply render_inj in Heq; [|by destruct pre|done| |done].
  - subst rest. destruct Hrep as (k & data & _ & Hfile & _).
    apply file_under_through in Hfile
      as (i' & ents' & e' & Hi' & Hdir' & Hn' & Hlast & Hmid).
    rewrite Hi in Hi'. injection Hi' as <-.
    rewrite Hdir in Hdir'. injection Hdir' as -> <-.
    rewrite Hn in Hn'. by injection Hn' as <-.
  - apply Forall_app. split; [by eapply namei_valid|].
    constructor; [by eapply Hvalid|done].
Qed.

End NotReported.

(** X5: a file that lies beneath a symbolic link to a directory is never
    reported by a path through that link. *)
Theorem beneath_link_never_reported ls stdout_ok fs rank pre i l ents n e
  post :
  names_valid fs = true → ranked rank fs = true →
  namei fs 0 (components root ++ pre) = Some i →
  fs !! i = Some (IDir l ents) → ents !! n = Some e →
  d_link e = true →
  post ≠ [] → Forall (λ m, valid_name m = true) post →
  ∃ w',
    main ls stdout_ok (fuel_for rank fs) (initial fs) = Some (Ok tt, w')
    ∧ ¬ In (render (pre ++ n :: post)) (stdout_of (w_trace w')).
Proof.
  intros Hv%names_valid_spec Hr%ranked_spec Hi Hdir Hn Hlink Hne Hpost.
  eexists. split; [by apply main_scan_initial|]. cbn [w_trace].
  intros Hin.
  destruct (printed_through ls stdout_ok fs rank Hv Hr _ _ _ _ _ _ _
              Hi Hdir Hn Hpost Hin) as (_ & _ & Hmid).
  destruct (Hmid Hne). congruence.
Qed.

Lemma beneath_link_never_reported_witness :
  ∃ w',
    main ls_table (λ _, true) (fuel_for scenario_rank locked_fs)
      (initial locked_fs) = Some (Ok tt, w')
    ∧ ¬ In (render ([] ++ "via" :: ["i.yml"])) (stdout_of (w_trace w')).
Proof.
  apply (beneath_link_never_reported ls_table (λ _, true) locked_fs
           scenario_rank [] 3 true
           (list_to_map [("a.json", ent 4); ("locked", ent 5);
                         ("pkg.json", ent 7); ("via", lnk 7)])
           "via" (lnk 7) ["i.yml"]);
    try (vm_compute; reflexivity).
  - discriminate.
  - repeat constructor.
Defined.

(** X6: a file in a directory that cannot be listed, or beneath it, is never
    reported, and the scan goes on to its normal end. *)
Theorem in_unlistable_never_reported ls stdout_ok fs rank pre i ents n e
  post :
  names_valid fs = true → ranked rank fs = true →
  namei fs 0 (components root ++ pre) = Some i →
  fs !! i = Some (IDir false ents) → ents !! n = Some e →
  Forall (λ m, valid_name m = true) post →
  ∃ w',
    main ls stdout_ok (fuel_for rank fs) (initial fs) = Some (Ok tt, w')
    ∧ ¬ In (render (pre ++ n :: post)) (stdout_of (w_trace w')).
Proof.
  intros Hv%names_valid_spec Hr%ranked_spec Hi Hdir Hn Hpost.
  eexists. split; [by apply main_scan_initial|]. cbn [w_trace].
  intros Hin.
  by destruct (printed_through ls stdout_ok fs rank Hv Hr _ _ _ _ _ _ _
                 Hi Hdir Hn Hpost Hin) as (? & _).
Qed.

Lemma in_unlistable_never_reported_witness :
  ∃ w',
    main ls_table (λ _, true) (fuel_for scenario_rank locked_fs)
      (initial locked_fs) = Some (Ok tt, w')
    ∧ ¬ In (render (["locked"] ++ "h.ts" :: [])) (stdout_of (w_trace w')).
Proof.
  apply (in_unlistable_never_reported ls_table (λ _, true) locked_fs
           scenario_rank ["locked"] 5 (list_to_map [("h.ts", ent 6)])
           "h.ts" (ent 6) []);
    try (vm_compute; reflexivity).
  constructor.
Defined.

(** X7: a directory is never reported, whatever its name: a line printed
    never names a directory. *)
Theorem directory_never_reported ls stdout_ok fs rank pre i l ents n e :
  names_valid fs = true → ranked rank fs = true →
  namei fs 0 (components root ++ pre) = Some i →
  fs !! i = Some (IDir l ents) → ents !! n = Some e →
  target_is_dir fs e = true →
  ∃ w',
    main ls stdout_ok (fuel_for rank fs) (initial fs) = Some (Ok tt, w')
    ∧ ¬ In (render (pre ++ [n])) (stdout_of (w_trace w')).
Proof.
  intros Hv%names_valid_spec Hr%ranked_spec Hi Hdir Hn Hd.
  eexists. split; [by apply main_scan_initial|]. cbn [w_trace].
  intros Hin.
  destruct (printed_through ls stdout_ok fs rank Hv Hr _ _ _ _ _ _ []
              Hi Hdir Hn ltac:(constructor) Hin) as (_ & Hlast & _).
  rewrite Hlast in Hd; done.
Qed.

Lemma directory_never_reported_witness :
  ∃ w',
    main ls_table (λ _, true) (fuel_for scenario_rank locked_fs)
      (initial locked_fs) = Some (Ok tt, w')
    ∧ ¬ In (render ([] ++ ["pkg.json"])) (stdout_of (w_trace w')).
Proof.
  apply (directory_never_reported ls_table (λ _, true) locked_fs
           scenario_rank [] 3 true
           (list_to_map [("a.json", ent 4); ("locked", ent 5);
                         ("pkg.json", ent 7); ("via", lnk 7)])
           "pkg.json" (ent 7));
    vm_compute; reflexivity.
Defined.

(** ** The shape of the trace *)









(** ** Only the first three bytes count *)

Section Clip.

Context (fs1 fs2 : filesystem).
Hypothesis (Hclip : clip <$> fs1 = clip <$> fs2).

Lemma clip_lookup i : clip <$> fs1 !! i = clip <$> fs2 !! i.
Proof. by rewrite <- !lookup_fmap, Hclip. Qed.

Lemma clip_dir i l ents :
  fs1 !! i = Some (IDir l ents) ↔ fs2 !! i = Some (IDir l ents).
Proof.
  pose proof (clip_lookup i) as H.
  destruct (fs1 !! i) as [[]|], (fs2 !! i) as [[]|]; simpl in H;
    split; intros; congruence.
Qed.

Lemma clip_dir_entries i : dir_entries fs1 i = dir_entries fs2 i.
Proof.
  unfold dir_entries. pose proof (clip_lookup i) as H.
  destruct (fs1 !! i) as [[]|], (fs2 !! i) as [[]|]; simpl in H;
    congruence.
Qed.

Lemma clip_target_is_dir e : target_is_dir fs1 e = target_is_dir fs2 e.
Proof.
  unfold target_is_dir. pose proof (clip_lookup (d_ino e)) as H.
  destruct (fs1 !! d_ino e) as [[]|], (fs2 !! d_ino e) as [[]|];
    simpl in H; congruence.
Qed.

Lemma clip_namei cur comps : namei fs1 cur comps = namei fs2 cur comps.
Proof.
  revert cur. induction comps as [|n rest IH]; intros cur; [done|].
  simpl. rewrite clip_dir_entries.
  destruct (dir_entries fs2 cur) as [ents|]; [|done].
  destruct (ents !! n); [apply IH|done].
Qed.

Lemma clip_lstat comps : lstat fs1 comps = lstat fs2 comps.
Proof.
  unfold lstat. destruct (last comps); [|done]. rewrite clip_namei.
  destruct (namei fs2 0 (removelast comps)); [|done].
  by rewrite clip_dir_entries.
Qed.

Lemma clip_open_ino i : open_ino fs1 i = open_ino fs2 i.
Proof.
  unfold open_ino. pose proof (clip_lookup i) as H.
  destruct (fs1 !! i) as [[[] ?|]|], (fs2 !! i) as [[[] ?|]|]; simpl in H;
    congruence.
Qed.

Lemma clip_read3 i : read3 fs1 i = read3 fs2 i.
Proof.
  unfold read3. pose proof (clip_lookup i) as H.
  destruct (fs1 !! i) as [[[] ?|]|], (fs2 !! i) as [[[] ?|]|]; simpl in H;
    congruence.
Qed.

Lemma clip_listing ls top : listing ls fs1 top = listing ls fs2 top.
Proof.
  unfold listing. rewrite clip_namei.
  destruct (namei fs2 0 (components top)) as [i|]; [|done].
  pose proof (clip_lookup i) as H.
  destruct (fs1 !! i) as [[|l1 e1]|], (fs2 !! i) as [[|l2 e2]|];
    simpl in H; try congruence; try done.
  injection H as -> ->. destruct l2; [|done]. f_equal.
  apply map_ext. intros ne. unfold to_DirEntry.
  by rewrite clip_target_is_dir.
Qed.

Lemma clip_file_events stdout_ok dirpath n :
  file_events stdout_ok fs1 dirpath n = file_events stdout_ok fs2 dirpath n.
Proof.
  unfold file_events, open_rb, probe_events. rewrite clip_namei.
  destruct (str_endswith_any n extensions); [|done].
  destruct (namei fs2 0 _) as [i|]; [|done].
  rewrite clip_open_ino.
  destruct (open_ino fs2 i) as [j|]; [|done]. by rewrite clip_read3.
Qed.

Lemma clip_walk_events ls stdout_ok fuel followlinks top :
  walk_events ls stdout_ok fuel followlinks fs1 top
  = walk_events ls stdout_ok fuel followlinks fs2 top.
Proof.
  revert top. induction fuel as [|fuel IH]; intros top; [done|].
  cbn [walk_events]. rewrite clip_listing.
  destruct (listing ls fs2 top) as [entries|]; [|done].
  set (dirs := map name (List.filter is_dir entries)). clearbody dirs.
  erewrite (flat_map_ext_In (file_events stdout_ok fs1 top));
    [|intros; apply clip_file_events].
  assert (Hseq : ∀ l,
    events_seq (λ dirname,
        if followlinks || negb (islink fs1 (os_path_join top dirname))
        then walk_events ls stdout_ok fuel followlinks fs1
               (os_path_join top dirname)
        else Some []) l
    = events_seq (λ dirname,
        if followlinks || negb (islink fs2 (os_path_join top dirname))
        then walk_events ls stdout_ok fuel followlinks fs2
               (os_path_join top dirname)
        else Some []) l).
  { induction l as [|d l IHl]; simpl; [done|].
    rewrite IHl, IH. unfold islink. by rewrite clip_lstat. }
  by rewrite Hseq.
Qed.

End Clip.

(** X9: only the first three bytes of a file count: on two file systems that
    differ in nothing but the bytes of their files after the third, the
    script ends in the same way after the same calls, printing the same
    lines. *)
Theorem bytes_after_third_ignored ls stdout_ok fuel fs1 fs2 :
  clip <$> fs1 = clip <$> fs2 →
  outcome (main ls stdout_ok fuel (initial fs1))
  = outcome (main ls stdout_ok fuel (initial fs2)).
Proof.
  intros Hclip. rewrite !main_run. cbn [initial w_fs].
  rewrite (clip_walk_events fs1 fs2 Hclip).
  by destruct (walk_events ls stdout_ok fuel false fs2 root).
Qed.

Lemma bytes_after_third_ignored_witness :
  outcome (main ls_table (λ _, true) 14 (initial scenario_fs))
  = outcome (main ls_table (λ _, true) 14 (initial scenario_fs_tails)).
Proof.
  apply (bytes_after_third_ignored ls_table (λ _, true) 14 scenario_fs
           scenario_fs_tails).
  vm_compute. reflexivity.
Defined.

(** ** The order of the lines *)

Lemma before_app_l {A} (a b : A) l k : before a b l → before a b (l ++ k).
Proof.
  intros (l1 & l2 & l3 & ->). exists l1, l2, (l3 ++ k).
  by repeat (rewrite <- app_assoc || rewrite <- app_comm_cons).
Qed.

Lemma before_app_r {A} (a b : A) l k : before a b k → before a b (l ++ k).
Proof.
  intros (l1 & l2 & l3 & ->). exists (l ++ l1), l2, l3.
  by rewrite <- app_assoc.
Qed.

Lemma before_split {A} (a b : A) l k : In a l → In b k → before a b (l ++ k).
Proof.
  intros (l1 & l2 & ->)%in_split (k1 & k2 & ->)%in_split.
  exists l1, (l2 ++ k1), k2.
  by repeat (rewrite <- app_assoc || rewrite <- app_comm_cons).
Qed.

Lemma before_flat_map {A B} (f : A → list B) (a b : B) x l :
  In x l → before a b (f x) → before a b (flat_map f l).
Proof.
  intros (l1 & l2 & ->)%in_split H. rewrite flat_map_app. simpl.
  by apply before_app_r, before_app_l.
Qed.

Lemma before_map {A B} (f : A → B) (a b : A) l :
  before a b l → before (f a) (f b) (map f l).
Proof.
  intros (l1 & l2 & l3 & ->). exists (map f l1), (map f l2), (map f l3).
  by rewrite !map_app, !map_cons, !map_app, !map_cons.
Qed.

Section Order.

Context (ls : lister) (stdout_ok : string → bool) (fs : filesystem).

(** A file reported from a sub-directory has two names at least below the
    directory walked. *)
Lemma hits_below fuel pre0 comps (ne : string * dirent) :
  In comps
    (if d_link ne.2 then []
     else tree_hits ls stdout_ok fuel fs (d_ino ne.2) (pre0 ++ [ne.1])) →
  ∃ m rest, comps = pre0 ++ ne.1 :: m :: rest
    ∧ d_link ne.2 = false
    ∧ In comps (tree_hits ls stdout_ok fuel fs (d_ino ne.2) (pre0 ++ [ne.1])).
Proof.
  destruct (d_link ne.2); [done|]. intros Hin.
  destruct (hits_sound _ _ _ _ _ _ _ Hin) as (rest & -> & k & data & Hl & _).
  destruct rest as [|m rest]; [done|].
  exists m, rest. split; [by rewrite <- app_assoc|done].
Qed.

(** The files of a directory come before the files of its
    sub-directories. *)
Lemma hits_order fuel ino pre0 pre n d rest :
  rest ≠ [] →
  In (pre0 ++ pre ++ [n]) (tree_hits ls stdout_ok fuel fs ino pre0) →
  In (pre0 ++ pre ++ d :: rest) (tree_hits ls stdout_ok fuel fs ino pre0) →
  before (pre0 ++ pre ++ [n]) (pre0 ++ pre ++ d :: rest)
    (tree_hits ls stdout_ok fuel fs ino pre0).
Proof.
  intros Hrest. revert ino pre0 pre.
  induction fuel as [|fuel IH]; intros ino pre0 pre; [done|].
  cbn [tree_hits].
  destruct (fs !! ino) as [[st data|[|] ents]|] eqn:Hdir; try done.
  rewrite !in_app_iff, !in_map_iff, !in_flat_map.
  intros Ha Hb. destruct pre as [|x pre].
  - apply before_split.
    + destruct Ha as [Ha|(ne & _ & Ha)]; [by apply in_map_iff|].
      apply hits_below in Ha as (m & r & Heq & _).
      apply app_inv_head in Heq. done.
    + destruct Hb as [(ne & Heq & _)|Hb]; [|by apply in_flat_map].
      apply app_inv_head in Heq. injection Heq as _ <-. done.
  - apply before_app_r.
    destruct Ha as [(ne & Heq & _)|(ne & Hne & Ha)].
    { apply app_inv_head in Heq. injection Heq as _ Heq.
      by destruct pre. }
    destruct Hb as [(ne' & Heq & _)|(ne' & Hne' & Hb)].
    { apply app_inv_head in Heq. injection Heq as _ Heq.
      by destruct pre. }
    apply hits_below in Ha as (m & r & Heq & Hlink & Ha).
    apply hits_below in Hb as (m' & r' & Heq' & _ & Hb).
    apply app_inv_head in Heq. injection Heq as Hx _.
    apply app_inv_head in Heq'. injection Heq' as Hx' _.
    assert (ne' = ne) as ->.
    { apply filter_In in Hne as [Hne _]. apply filter_In in Hne' as [Hne' _].
      destruct ne as [y e], ne' as [y' e']. cbn [fst] in *. subst y y'.
      apply In_readdir in Hne, Hne'. congruence. }
    apply (before_flat_map _ _ _ ne); [done|].
    rewrite Hlink. subst x.
    replace (pre0 ++ (ne.1 :: pre) ++ [n])
      with ((pre0 ++ [ne.1]) ++ pre ++ [n]) in *
      by (by rewrite <- app_assoc).
    replace (pre0 ++ (ne.1 :: pre) ++ d :: rest)
      with ((pre0 ++ [ne.1]) ++ pre ++ d :: rest) in *
      by (by rewrite <- app_assoc).
    by apply IH.
Qed.

End Order.

(** X10: the lines come top-down: the line of a file that lies in a
    directory is printed before the line of any file beneath a sub-directory
    of that directory. *)
Theorem own_files_before_subdirectories ls stdout_ok fs rank :
  names_valid fs = true → ranked rank fs = true →
  ∃ w',
    main ls stdout_ok (fuel_for rank fs) (initial fs) = Some (Ok tt, w')
    ∧ ∀ pre n d rest,
        rest ≠ [] →
        Forall (λ m, valid_name m = true) (pre ++ n :: d :: rest) →
        In (render (pre ++ [n])) (stdout_of (w_trace w')) →
        In (render (pre ++ d :: rest)) (stdout_of (w_trace w')) →
        before (render (pre ++ [n])) (render (pre ++ d :: rest))
          (stdout_of (w_trace w')).
Proof.
  intros Hv%names_valid_spec Hr%ranked_spec.
  eexists. split; [by apply main_scan_initial|]. cbn [w_trace].
  intros pre n d rest Hrest Hall. unfold scan_events.
  destruct (namei fs 0 (components root)) as [r|]; [|done].
  rewrite stdout_of_tree.
  apply Forall_app in Hall as [Hpre Hall].
  apply Forall_cons in Hall as [Hn Hall].
  assert (Hin : ∀ comps, comps ≠ [] →
    Forall (λ m, valid_name m = true) comps →
    In (render comps)
      (map render (tree_hits ls stdout_ok (S (rank r)) fs r [])) →
    In comps (tree_hits ls stdout_ok (S (rank r)) fs r [])).
  { intros comps Hne Hc (comps' & Heq & Hin')%in_map_iff.
    destruct (hits_sound _ _ _ _ _ _ _ Hin') as (rest' & -> & Hrep).
    destruct (reported_valid _ _ Hv _ _ _ Hrep) as [Hne' Hv'].
    by apply render_inj in Heq as <-. }
  intros Ha%Hin Hb%Hin.
  - apply before_map. by apply (hits_order ls stdout_ok fs _ r [] pre n d rest).
  - by destruct pre.
  - by apply Forall_app.
  - by destruct pre.
  - apply Forall_app. split; [done|]. by constructor.
Qed.

Lemma own_files_before_subdirectories_witness :
  ∃ w',
    main ls_reverse (λ _, true) (fuel_for scenario_rank scenario_fs)
      (initial scenario_fs) = Some (Ok tt, w')
    ∧ ∀ pre n d rest,
        rest ≠ [] →
        Forall (λ m, valid_name m = true) (pre ++ n :: d :: rest) →
        In (render (pre ++ [n])) (stdout_of (w_trace w')) →
        In (render (pre ++ d :: rest)) (stdout_of (w_trace w')) →
        before (render (pre ++ [n])) (render (pre ++ d :: rest))
          (stdout_of (w_trace w')).
Proof.
  apply (own_files_before_subdirectories ls_reverse (λ _, true) scenario_fs
           scenario_rank);
    vm_compute; reflexivity.
Defined.

(** ** Every candidate is opened once *)

Lemma entry_under_single fs cur n :
  entry_under fs cur [n] = file_entry fs cur n.
Proof. reflexivity. Qed.

Lemma entry_under_cons fs cur n rest :
  rest ≠ [] →
  entry_under fs cur (n :: rest)
  = match fs !! cur with
    | Some (IDir true ents) =>
        match ents !! n with
        | Some e =>
            if target_is_dir fs e && negb (d_link e)
            then entry_under fs (d_ino e) rest
            else None
        | None => None
        end
    | _ => None
    end.
Proof.
  destruct rest as [|m rest]; [done|]. intros _. unfold entry_under.
  change (last (n :: m :: rest)) with (last (m :: rest)).
  change (removelast (n :: m :: rest)) with (n :: removelast (m :: rest)).
  cbn [descend].
  destruct (last (m :: rest)) as [k|]; [|by repeat case_match].
  destruct (fs !! cur) as [[|[|] ents]|]; try done.
  destruct (ents !! n) as [e|]; [|done].
  by destruct (target_is_dir fs e && negb (d_link e)).
Qed.

Lemma entry_under_namei fs cur rest e :
  entry_under fs cur rest = Some e → namei fs cur rest = Some (d_ino e).
Proof.
  revert cur. induction rest as [|n rest IH]; intros cur; [done|].
  destruct rest as [|m rest].
  - rewrite entry_under_single. unfold file_entry. simpl. unfold dir_entries.
    destruct (fs !! cur) as [[|[|] ents]|]; try done.
    destruct (ents !! n) as [e'|]; [|done].
    destruct (target_is_dir fs e'); [done|]. by intros [= ->].
  - rewrite entry_under_cons by done. cbn [namei]. unfold dir_entries.
    destruct (fs !! cur) as [[|[|] ents]|]; try done.
    destruct (ents !! n) as [e'|]; [|done].
    destruct (target_is_dir fs e' && negb (d_link e')); [|done].
    apply IH.
Qed.

Section Candidates.

Context (ls : lister) (stdout_ok : string → bool) (fs : filesystem).

Lemma opened_paths_entry pre ne :
  opened_paths (entry_events stdout_ok fs pre ne)
  = if str_endswith_any ne.1 extensions
    then [path_of root (pre ++ [ne.1])] else [].
Proof.
  unfold entry_events, probe_events.
  destruct (str_endswith_any ne.1 extensions); [|done].
  by repeat case_match.
Qed.

(** The paths opened are the paths of the candidates. *)
Lemma opened_paths_tree fuel ino pre :
  opened_paths (tree_events ls stdout_ok fuel fs ino pre)
  = map (path_of root) (tree_cands ls fuel fs ino pre).
Proof.
  revert ino pre. induction fuel as [|fuel IH]; intros ino pre; [done|].
  cbn [tree_events tree_cands].
  change (opened_paths (?e :: ?l)) with (opened_paths [e] ++ opened_paths l).
  cbn [opened_paths flat_map app].
  destruct (fs !! ino) as [[st data|[|] ents]|]; try done.
  rewrite opened_paths_app, !opened_paths_flat_map, map_app. f_equal.
  - rewrite (flat_map_ext_In _
      (λ ne, if str_endswith_any ne.1 extensions
             then [path_of root (pre ++ [ne.1])] else []));
      [|intros; apply opened_paths_entry].
    by rewrite flat_map_if_filter, map_map.
  - rewrite map_flat_map. apply flat_map_ext_In. intros ne _.
    destruct (d_link ne.2); [done|]. apply IH.
Qed.

Lemma cands_sound fuel ino pre comps :
  In comps (tree_cands ls fuel fs ino pre) →
  ∃ rest n e,
    comps = pre ++ rest ∧ last rest = Some n
    ∧ str_endswith_any n extensions = true
    ∧ entry_under fs ino rest = Some e.
Proof.
  revert ino pre. induction fuel as [|fuel IH]; intros ino pre; [done|].
  cbn [tree_cands].
  destruct (fs !! ino) as [[st data|[|] ents]|] eqn:Hdir; try done.
  rewrite in_app_iff, in_map_iff, in_flat_map.
  intros [([n e] & <- & Hin)|([n e] & Hin & Hcomps)];
    apply filter_In in Hin as [Hin Hp]; apply In_readdir in Hin;
    cbn [fst snd] in *.
  - apply andb_true_iff in Hp as [Hnd Hext]. apply negb_true_iff in Hnd.
    exists [n], n, e. rewrite entry_under_single. unfold file_entry.
    by rewrite Hdir, Hin, Hnd.
  - destruct (d_link e) eqn:Hlink; [done|].
    apply IH in Hcomps as (rest & n' & e' & -> & Hlast & Hext & Hunder).
    assert (rest ≠ []) by (by intros ->).
    exists (n :: rest), n', e'.
    rewrite entry_under_cons, Hdir, Hin, Hp, Hlink by done.
    rewrite <- app_assoc. repeat split; try done. by destruct rest.
Qed.

Lemma cands_complete rank rest :
  Ranked rank fs →
  ∀ fuel ino pre n e,
    last rest = Some n → str_endswith_any n extensions = true →
    entry_under fs ino rest = Some e → rank ino < fuel →
    In (pre ++ rest) (tree_cands ls fuel fs ino pre).
Proof.
  intros Hrank. induction rest as [|m rest IH];
    intros fuel ino pre n e Hlast Hext Hunder Hlt; [done|].
  destruct fuel as [|fuel]; [lia|]. cbn [tree_cands].
  destruct rest as [|m' rest].
  - injection Hlast as <-. rewrite entry_under_single in Hunder.
    unfold file_entry in Hunder.
    destruct (fs !! ino) as [[|[|] ents]|]; try done.
    destruct (ents !! m) as [e'|] eqn:Hm; [|done].
    destruct (target_is_dir fs e') eqn:Hd; [done|].
    apply in_app_iff. left. apply in_map_iff. exists (m, e'). split; [done|].
    apply filter_In. split; [by apply In_readdir|]. cbn [fst snd].
    by rewrite Hd, Hext.
  - rewrite entry_under_cons in Hunder by done.
    destruct (fs !! ino) as [[|[|] ents]|] eqn:Hdir; try done.
    destruct (ents !! m) as [e'|] eqn:Hm; [|done].
    destruct (target_is_dir fs e') eqn:Hd; [|done].
    destruct (d_link e') eqn:Hlink; [done|]. simpl in Hunder.
    apply in_app_iff. right. apply in_flat_map. exists (m, e'). split.
    { apply filter_In. split; [by apply In_readdir|done]. }
    cbn [fst snd]. rewrite Hlink.
    replace (pre ++ m :: m' :: rest) with ((pre ++ [m]) ++ m' :: rest)
      by (by rewrite <- app_assoc).
    eapply IH; try done.
    pose proof (Hrank _ _ _ _ _ Hdir Hm Hlink). lia.
Qed.

Lemma cands_NoDup fuel ino pre : NoDup (tree_cands ls fuel fs ino pre).
Proof.
  revert ino pre. induction fuel as [|fuel IH]; intros ino pre;
    [apply NoDup_nil_2|].
  cbn [tree_cands].
  destruct (fs !! ino) as [[st data|[|] ents]|] eqn:Hdir;
    try apply NoDup_nil_2.
  pose proof (NoDup_readdir ls ino ents) as Hnd.
  apply NoDup_app. split; [|split].
  - rewrite <- (map_map fst (λ n, pre ++ [n])).
    apply (NoDup_fmap_2 (λ n, pre ++ [n])).
    by apply NoDup_map_fst_filter.
  - intros comps [[n e] [<- _]]%list_elem_of_In%in_map_iff
      [[n' e'] [Hin Hcomps]]%list_elem_of_In%in_flat_map.
    cbn [fst snd] in *. destruct (d_link e'); [done|].
    apply cands_sound in Hcomps as (rest & k & e0 & Heq & Hlast & _).
    rewrite <- app_assoc in Heq. apply app_inv_head in Heq.
    injection Heq as -> <-. done.
  - apply NoDup_ListNoDup. apply NoDup_ListNoDup in Hnd.
    set (dirs := List.filter _ _).
    assert (Hdirs : ∀ x, In x dirs → ents !! x.1 = Some x.2).
    { intros [n e] [Hin _]%filter_In. by apply In_readdir in Hin. }
    assert (Hdn : List.NoDup (map fst dirs))
      by (by apply NoDup_ListNoDup, NoDup_map_fst_filter, NoDup_ListNoDup).
    clearbody dirs. induction dirs as [|[n e] dirs IHd]; simpl;
      [constructor|].
    apply NoDup_ListNoDup, NoDup_app. split; [|split].
    + destruct (d_link e); [apply NoDup_nil_2|apply IH].
    + intros comps Hc1%list_elem_of_In
        [[n' e'] [Hin' Hc2]]%list_elem_of_In%in_flat_map.
      cbn [fst snd] in *.
      destruct (d_link e); [done|]. destruct (d_link e'); [done|].
      apply cands_sound in Hc1 as (rest1 & ? & ? & -> & _).
      apply cands_sound in Hc2 as (rest2 & ? & ? & Heq & _).
      rewrite <- !app_assoc in Heq. apply app_inv_head in Heq.
      injection Heq as -> _.
      inversion Hdn as [|? ? Hnotin _]; subst. apply Hnotin.
      apply in_map_iff. by exists (n', e').
    + apply NoDup_ListNoDup, IHd.
      * intros x Hx. apply Hdirs. by right.
      * by inversion Hdn.
Qed.

End Candidates.

(** X11: every candidate, that is every entry found under the root through
    directories that can be listed and are not symbolic links, that is not a
    directory and whose name ends in a recognized extension, is opened
    exactly once, whether it can be read or not and whatever it holds. *)
Theorem candidate_opened_once ls stdout_ok fs rank r comps n e :
  names_valid fs = true → ranked rank fs = true →
  namei fs 0 (components root) = Some r →
  last comps = Some n →
  str_endswith_any n extensions = true →
  entry_under fs r comps = Some e →
  ∃ w',
    main ls stdout_ok (fuel_for rank fs) (initial fs) = Some (Ok tt, w')
    ∧ count_occ string_dec (opened_paths (w_trace w')) (path_of root comps)
      = 1.
Proof.
  intros Hv%names_valid_spec Hr%ranked_spec Hroot Hlast Hext Hunder.
  eexists. split; [by apply main_scan_initial|]. cbn [w_trace].
  unfold scan_events. rewrite Hroot, opened_paths_tree.
  assert (Hvalid : ∀ c, In c (tree_cands ls (S (rank r)) fs r []) →
            Forall (λ m, valid_name m = true) c).
  { intros c (rest & k & e0 & -> & _ & _ & Hu)%cands_sound.
    apply entry_under_namei in Hu. by eapply namei_valid. }
  apply NoDup_count_occ'.
  - apply NoDup_ListNoDup, NoDup_fmap_2_strong; [|apply cands_NoDup].
    intros c1 c2 H1%list_elem_of_In%Hvalid H2%list_elem_of_In%Hvalid Heq.
    apply (f_equal components) in Heq.
    rewrite !components_path_of in Heq by done.
    by apply app_inv_head in Heq.
  - apply in_map. apply (cands_complete ls fs rank comps Hr _ r [] n e);
      try done. lia.
Qed.

Lemma candidate_opened_once_witness :
  ∃ w',
    main ls_table (λ _, true) (fuel_for scenario_rank scenario_fs)
      (initial scenario_fs) = Some (Ok tt, w')
    ∧ count_occ string_dec (opened_paths (w_trace w'))
        (path_of root ["e.yml"]) = 1.
Proof.
  apply (candidate_opened_once ls_table (λ _, true) scenario_fs
           scenario_rank 3 ["e.yml"] "e.yml" (ent 9));
    vm_compute; reflexivity.
Defined.
